(** * hwui resource caches: ResourceCache and LayerCache

    A shallow embedding of [libs/hwui/ResourceCache.cpp] (the registry that
    counts the display lists referring to a Skia resource and tears the
    resource down once nobody refers to it) and of the byte-budgeted layer
    pool declared in [libs/hwui/LayerCache.h], with the properties their
    specification states about them; and of the RenderScript scripts and
    types of [libs/rs/rsScriptC.cpp] and [libs/rs/rsType.cpp], with
    properties read off their code. *)

From Stdlib Require Import ZArith NArith Lia List Ascii String.
From stdpp Require Import base gmap list strings.
Import ListNotations.

Local Open Scope Z_scope.

(** ** The resource registry, [ResourceCache.cpp] *)

Module ResourceCache.

(** [enum ResourceType]. *)
Inductive ResourceType := kBitmap | kMatrix | kPaint | kShader.

(** Modelled from the spec: [struct ResourceReference] is declared in
    ResourceCache.h, which is not among the sources.  The fields are the ones
    [logCache] prints; the spec gives the counter as an unsigned number
    without a width, so it is an integer here and [refCount--] is a plain
    subtraction: a counter that went below zero shows as a negative number. *)
Record ResourceReference := mkResourceReference {
  refCount : Z;
  recycled : bool;
  destroyed : bool;
  resourceType : ResourceType
}.

(** [new ResourceReference(resourceType)]: the spec's fresh entry
    [{kind, refCount: 0, recycleRequested: false, destroyRequested: false}]. *)
Definition newResourceReference (t : ResourceType) : ResourceReference :=
  {| refCount := 0; recycled := false; destroyed := false; resourceType := t |}.

Definition withRefCount (n : Z) (ref : ResourceReference) : ResourceReference :=
  {| refCount := n; recycled := recycled ref; destroyed := destroyed ref;
     resourceType := resourceType ref |}.

Definition withRecycled (b : bool) (ref : ResourceReference) : ResourceReference :=
  {| refCount := refCount ref; recycled := b; destroyed := destroyed ref;
     resourceType := resourceType ref |}.

Definition withDestroyed (b : bool) (ref : ResourceReference) : ResourceReference :=
  {| refCount := refCount ref; recycled := recycled ref; destroyed := b;
     resourceType := resourceType ref |}.

(** Objects reached through a resource: [bitmap->pixelRef()],
    [bitmap->getColorTable()] and [shader->getSkShader()].  A resource is
    known by its address. *)
Inductive SubObject :=
| PixelRefOf (bitmap : Z)
| ColorTableOf (bitmap : Z)
| SkShaderOf (shader : Z).

(** What the registry does to the world outside its table, in the order in
    which it does it. *)
Inductive Effect :=
| SafeRef (o : SubObject)              (* o->safeRef() *)
| SafeUnref (o : SubObject)            (* o->safeUnref() *)
| SetPixelsNull (bitmap : Z)           (* bitmap->setPixels(NULL, NULL) *)
| TextureCacheRemove (bitmap : Z)      (* textureCache.remove(bitmap) *)
| GradientCacheRemove (o : SubObject)  (* gradientCache.remove(o) *)
| Delete (resource : Z).               (* delete resource *)

Definition SubObject_eq_dec (x y : SubObject) : {x = y} + {x <> y}.
Proof. decide equality; apply Z.eq_dec. Defined.

Definition Effect_eq_dec (x y : Effect) : {x = y} + {x <> y}.
Proof. decide equality; (apply Z.eq_dec || apply SubObject_eq_dec). Defined.

(** How often the effect [e] happened in a trace. *)
Definition occurrences (e : Effect) (l : list Effect) : nat :=
  count_occ Effect_eq_dec l e.

(** The state the functions of ResourceCache.cpp read and write: the table
    [mCache] (a [KeyedVector] from resource addresses to entries), whether
    the [Caches] singleton exists, and the trace of effects.  Caches.h is not
    among the sources: what [Caches::hasInstance()] answers is a field of the
    state that may hold either value and that no function of the registry
    changes. *)
Record World := mkWorld {
  mCache : gmap Z ResourceReference;
  hasInstance : bool;
  effects : list Effect
}.

Definition setCache (m : gmap Z ResourceReference) (w : World) : World :=
  {| mCache := m; hasInstance := hasInstance w; effects := effects w |}.

Definition emit (es : list Effect) (w : World) : World :=
  {| mCache := mCache w; hasInstance := hasInstance w;
     effects := effects w ++ es |}.

(** [ResourceCache::ResourceCache()]: an empty table. *)
Definition initial (instance : bool) : World :=
  {| mCache := ∅; hasInstance := instance; effects := [] |}.

(** [if (Caches::hasInstance()) { e }]. *)
Definition whenInstance (w : World) (e : Effect) : list Effect :=
  if hasInstance w then [e] else [].

(** The [switch (ref->resourceType)] of [deleteResourceReference]. *)
Definition teardown (w : World) (resource : Z) (t : ResourceType) : list Effect :=
  match t with
  | kBitmap => whenInstance w (TextureCacheRemove resource) ++ [Delete resource]
  | kMatrix => [Delete resource]
  | kPaint => [Delete resource]
  | kShader =>
      whenInstance w (GradientCacheRemove (SkShaderOf resource)) ++ [Delete resource]
  end.

Definition isBitmap (t : ResourceType) : bool :=
  match t with kBitmap => true | _ => false end.

(** [ResourceCache::deleteResourceReference]. *)
Definition deleteResourceReference (resource : Z) (ref : ResourceReference)
    (w : World) : World :=
  let w1 :=
    if recycled ref && isBitmap (resourceType ref)
    then emit [SetPixelsNull resource] w else w in
  let w2 :=
    if destroyed ref
    then emit (teardown w1 resource (resourceType ref)) w1 else w1 in
  setCache (delete resource (mCache w2)) w2.

(** [ResourceCache::incrementRefcount] on a [void *] and a [ResourceType].  The pointer
    [ref] is the entry looked up, or the new entry just added; [ref->refCount++]
    then writes through it. *)
Definition incrementRefcount (resource : Z) (t : ResourceType) (w : World) : World :=
  let fresh := setCache (<[resource := newResourceReference t]> (mCache w)) w in
  let '(ref, w1) :=
    match mCache w !! resource with
    | None => (newResourceReference t, fresh)
    | Some ref0 =>
        if bool_decide (size (mCache w) = 0%nat)
        then (newResourceReference t, fresh) else (ref0, w)
    end in
  setCache (<[resource := withRefCount (refCount ref + 1) ref]> (mCache w1)) w1.

Definition incrementRefcountBitmap (bitmap : Z) (w : World) : World :=
  incrementRefcount bitmap kBitmap
    (emit [SafeRef (PixelRefOf bitmap); SafeRef (ColorTableOf bitmap)] w).

Definition incrementRefcountMatrix (matrix : Z) (w : World) : World :=
  incrementRefcount matrix kMatrix w.

Definition incrementRefcountPaint (paint : Z) (w : World) : World :=
  incrementRefcount paint kPaint w.

Definition incrementRefcountShader (shader : Z) (w : World) : World :=
  incrementRefcount shader kShader (emit [SafeRef (SkShaderOf shader)] w).

(** [ResourceCache::decrementRefcount] on a [void *]. *)
Definition decrementRefcount (resource : Z) (w : World) : World :=
  match mCache w !! resource with
  | None => w
  | Some ref0 =>
      let ref := withRefCount (refCount ref0 - 1) ref0 in
      let w1 := setCache (<[resource := ref]> (mCache w)) w in
      if refCount ref =? 0 then deleteResourceReference resource ref w1 else w1
  end.

Definition decrementRefcountBitmap (bitmap : Z) (w : World) : World :=
  decrementRefcount bitmap
    (emit [SafeUnref (PixelRefOf bitmap); SafeUnref (ColorTableOf bitmap)] w).

Definition decrementRefcountShader (shader : Z) (w : World) : World :=
  decrementRefcount shader (emit [SafeUnref (SkShaderOf shader)] w).

(** [ResourceCache::recycle] on a [void *]. *)
Definition recycle (resource : Z) (w : World) : World :=
  match mCache w !! resource with
  | None => w
  | Some ref0 =>
      let ref := withRecycled true ref0 in
      let w1 := setCache (<[resource := ref]> (mCache w)) w in
      if refCount ref =? 0 then deleteResourceReference resource ref w1 else w1
  end.

(** [ResourceCache::recycle] on an [SkBitmap *]. *)
Definition recycleBitmap (bitmap : Z) (w : World) : World :=
  match mCache w !! bitmap with
  | None => emit [SetPixelsNull bitmap] w
  | Some _ => recycle bitmap w
  end.

(** The four [ResourceCache::destructor] overloads differ in what they do
    with a resource that is not in the table; [untracked] is that part. *)
Definition destructorWith (untracked : World -> list Effect) (resource : Z)
    (w : World) : World :=
  match mCache w !! resource with
  | None => emit (untracked w) w
  | Some ref0 =>
      let ref := withDestroyed true ref0 in
      let w1 := setCache (<[resource := ref]> (mCache w)) w in
      if refCount ref =? 0 then deleteResourceReference resource ref w1 else w1
  end.

(** [ResourceCache::destructor] on an [SkBitmap *]. *)
Definition destructorBitmap (resource : Z) (w : World) : World :=
  destructorWith
    (fun w => whenInstance w (TextureCacheRemove resource) ++ [Delete resource])
    resource w.

(** [ResourceCache::destructor] on an [SkMatrix *]. *)
Definition destructorMatrix (resource : Z) (w : World) : World :=
  destructorWith (fun _ => [Delete resource]) resource w.

(** [ResourceCache::destructor] on an [SkPaint *]. *)
Definition destructorPaint (resource : Z) (w : World) : World :=
  destructorWith (fun _ => [Delete resource]) resource w.

(** [ResourceCache::destructor] on an [SkiaShader *]. *)
Definition destructorShader (resource : Z) (w : World) : World :=
  destructorWith
    (fun w => whenInstance w (GradientCacheRemove (SkShaderOf resource))
              ++ [Delete resource])
    resource w.

(** The calls a client can make, and runs of them. *)
Inductive Op :=
| IncrementRefcount (resource : Z) (t : ResourceType)
| IncrementRefcountBitmap (resource : Z)
| IncrementRefcountMatrix (resource : Z)
| IncrementRefcountPaint (resource : Z)
| IncrementRefcountShader (resource : Z)
| DecrementRefcount (resource : Z)
| DecrementRefcountBitmap (resource : Z)
| DecrementRefcountShader (resource : Z)
| Recycle (resource : Z)
| RecycleBitmap (resource : Z)
| DestructorBitmap (resource : Z)
| DestructorMatrix (resource : Z)
| DestructorPaint (resource : Z)
| DestructorShader (resource : Z).

Definition step (op : Op) (w : World) : World :=
  match op with
  | IncrementRefcount r t => incrementRefcount r t w
  | IncrementRefcountBitmap r => incrementRefcountBitmap r w
  | IncrementRefcountMatrix r => incrementRefcountMatrix r w
  | IncrementRefcountPaint r => incrementRefcountPaint r w
  | IncrementRefcountShader r => incrementRefcountShader r w
  | DecrementRefcount r => decrementRefcount r w
  | DecrementRefcountBitmap r => decrementRefcountBitmap r w
  | DecrementRefcountShader r => decrementRefcountShader r w
  | Recycle r => recycle r w
  | RecycleBitmap r => recycleBitmap r w
  | DestructorBitmap r => destructorBitmap r w
  | DestructorMatrix r => destructorMatrix r w
  | DestructorPaint r => destructorPaint r w
  | DestructorShader r => destructorShader r w
  end.

Fixpoint run (ops : list Op) (w : World) : World :=
  match ops with
  | [] => w
  | op :: ops' => run ops' (step op w)
  end.

End ResourceCache.

(** Bookkeeping over runs of the registry, used to state its properties. *)

Module Registry.
Import ResourceCache.

(** The resource an operation is called on. *)
Definition target (op : Op) : Z :=
  match op with
  | IncrementRefcount r _ | IncrementRefcountBitmap r | IncrementRefcountMatrix r
  | IncrementRefcountPaint r | IncrementRefcountShader r
  | DecrementRefcount r | DecrementRefcountBitmap r | DecrementRefcountShader r
  | Recycle r | RecycleBitmap r
  | DestructorBitmap r | DestructorMatrix r | DestructorPaint r
  | DestructorShader r => r
  end.

Inductive OpKind :=
| Increment (t : ResourceType)
| Decrement
| RecycleRequest
| DestroyRequest.

Definition kind (op : Op) : OpKind :=
  match op with
  | IncrementRefcount _ t => Increment t
  | IncrementRefcountBitmap _ => Increment kBitmap
  | IncrementRefcountMatrix _ => Increment kMatrix
  | IncrementRefcountPaint _ => Increment kPaint
  | IncrementRefcountShader _ => Increment kShader
  | DecrementRefcount _ | DecrementRefcountBitmap _ | DecrementRefcountShader _ =>
      Decrement
  | Recycle _ | RecycleBitmap _ => RecycleRequest
  | DestructorBitmap _ | DestructorMatrix _ | DestructorPaint _
  | DestructorShader _ => DestroyRequest
  end.

Definition tracked (r : Z) (w : World) : bool :=
  match mCache w !! r with Some _ => true | None => false end.

(** The call [op], made in [w], takes the entry of [r] out of the table. *)
Definition removes (r : Z) (op : Op) (w : World) : bool :=
  tracked r w && negb (tracked r (step op w)).

(** The call [op], made in [w], puts an entry for [r] into the table. *)
Definition creates (r : Z) (op : Op) (w : World) : bool :=
  negb (tracked r w) && tracked r (step op w).

(** How often a run takes the entry of [r] out of the table, and how often it
    puts one in. *)
Fixpoint removals (r : Z) (ops : list Op) (w : World) : nat :=
  match ops with
  | [] => 0%nat
  | op :: ops' =>
      ((if removes r op w then 1 else 0) + removals r ops' (step op w))%nat
  end.

Fixpoint creations (r : Z) (ops : list Op) (w : World) : nat :=
  match ops with
  | [] => 0%nat
  | op :: ops' =>
      ((if creates r op w then 1 else 0) + creations r ops' (step op w))%nat
  end.

(** The effects of [deleteResourceReference]. *)
Definition cleanupEffects (w : World) (r : Z) (ref : ResourceReference)
    : list Effect :=
  (if recycled ref && isBitmap (resourceType ref) then [SetPixelsNull r] else [])
  ++ (if destroyed ref then teardown w r (resourceType ref) else []).

(** The three functions that look an entry up and write one field of it share
    their last step: with the count at zero the entry goes, else it stays. *)
Definition settle (r : Z) (ref : ResourceReference) (w : World) : World :=
  let w1 := setCache (<[r := ref]> (mCache w)) w in
  if refCount ref =? 0 then deleteResourceReference r ref w1 else w1.

(** What [recycle] and the destructors do to an entry that stays. *)
Definition flagged (f : ResourceReference -> ResourceReference) (r : Z)
    (ref : ResourceReference) (w : World) : World :=
  setCache (<[r := f ref]> (mCache w)) w.

(** Every entry of the table counts at least one reference. *)
Definition allReferenced (w : World) : Prop :=
  forall r ref, mCache w !! r = Some ref -> 1 <= refCount ref.

(** The entry of the identity a call is made on, after the call, from its
    entry before the call: the table seen as one state machine per identity. *)
Definition keep (ref : ResourceReference) : option ResourceReference :=
  if refCount ref =? 0 then None else Some ref.

Definition entryAfter (k : OpKind) (e : option ResourceReference)
    : option ResourceReference :=
  match e, k with
  | None, Increment t => Some (withRefCount 1 (newResourceReference t))
  | None, _ => None
  | Some ref, Increment _ => Some (withRefCount (refCount ref + 1) ref)
  | Some ref, Decrement => keep (withRefCount (refCount ref - 1) ref)
  | Some ref, RecycleRequest => keep (withRecycled true ref)
  | Some ref, DestroyRequest => keep (withDestroyed true ref)
  end.

End Registry.

(** ** The bounded recency cache behind the layer pool *)

Module BoundedRecencyCache.

Local Open Scope N_scope.

Section Cache.

Context {Key Value : Type} `{EqDecision Key}.

(** The weight of a value: its byte size in the layer pool. *)
Variable weight : Value -> N.

(** Modelled from the spec: LayerCache.cpp and GenerationCache.h, which hold
    the cache behind the class that LayerCache.h declares, are not among the
    sources.  The state is the spec's data model: [entries] in recency order,
    least recently used first; [currentWeight] and [maxWeight] (the fields
    [mSize] and [mMaxSize] of LayerCache.h), as unsigned numbers with the
    exact arithmetic of the spec; and [hooked], the entries the removal hook
    was invoked on, in the order of the invocations. *)
Record Cache := mkCache {
  entries : list (Key * Value);
  currentWeight : N;
  maxWeight : N;
  hooked : list (Key * Value)
}.

(** Modelled from the spec: "created empty with a max weight". *)
Definition create (max : N) : Cache :=
  {| entries := []; currentWeight := 0; maxWeight := max; hooked := [] |}.

(** The sum of the weights of the values of [l]. *)
Fixpoint totalWeight (l : list (Key * Value)) : N :=
  match l with
  | [] => 0
  | e :: l' => weight (snd e) + totalWeight l'
  end.

(** Modelled from the spec: "evicts least-recently-used entries, invoking the
    removal hook on each, until [currentWeight + weight(value) <= maxWeight]";
    the hook "decrement[s] [currentByteSize]".  With nothing left to evict the
    loop has nothing to do. *)
Fixpoint evict (extra max : N) (l : list (Key * Value)) (current : N)
    (hook : list (Key * Value)) : list (Key * Value) * N * list (Key * Value) :=
  if current + extra <=? max then (l, current, hook)
  else
    match l with
    | [] => (l, current, hook)
    | e :: l' => evict extra max l' (current - weight (snd e)) (hook ++ [e])
    end.

Definition evictFor (extra : N) (c : Cache) : Cache :=
  let '(l, current, hook) :=
    evict extra (maxWeight c) (entries c) (currentWeight c) (hooked c) in
  {| entries := l; currentWeight := current; maxWeight := maxWeight c;
     hooked := hook |}.

(** Modelled from the spec: "[put(key, value) -> bool]: rejects (returns
    false, no mutation) if the value's weight alone exceeds [maxWeight];
    otherwise evicts ...; inserts as most-recently-used; returns true". *)
Definition put (key : Key) (value : Value) (c : Cache) : bool * Cache :=
  if maxWeight c <? weight value then (false, c)
  else
    let c1 := evictFor (weight value) c in
    (true,
     {| entries := entries c1 ++ [(key, value)];
        currentWeight := currentWeight c1 + weight value;
        maxWeight := maxWeight c1;
        hooked := hooked c1 |}).

(** The most recently used entry of [l] under [key], and [l] without it. *)
Fixpoint withdraw (key : Key) (l : list (Key * Value))
    : option (Value * list (Key * Value)) :=
  match l with
  | [] => None
  | e :: l' =>
      match withdraw key l' with
      | Some (v, rest) => Some (v, e :: rest)
      | None => if decide (fst e = key) then Some (snd e, l') else None
      end
  end.

(** Modelled from the spec: "[get(key)]: if present, ... removes it from the
    cache, returning it to the caller ...; reduces [currentWeight] by the
    entry's weight; invokes no removal hook". *)
Definition get (key : Key) (c : Cache) : option Value * Cache :=
  match withdraw key (entries c) with
  | None => (None, c)
  | Some (v, rest) =>
      (Some v,
       {| entries := rest; currentWeight := currentWeight c - weight v;
          maxWeight := maxWeight c; hooked := hooked c |})
  end.

(** Modelled from the spec: "[remove(key)]: if present, removes without
    invoking the removal hook (explicit withdrawal by identity ...)": the
    withdrawal of [get], with the value dropped. *)
Definition remove (key : Key) (c : Cache) : Cache := snd (get key c).

(** Modelled from the spec: "[clear()]: removes all entries, invoking the
    removal hook for each, in ... LRU-to-MRU order; resets [currentWeight]
    to 0". *)
Definition clear (c : Cache) : Cache :=
  {| entries := []; currentWeight := 0; maxWeight := maxWeight c;
     hooked := hooked c ++ entries c |}.

(** Modelled from the spec: "[setMaxWeight(n)]: lowers/raises the budget; if
    lowered below [currentWeight], evicts LRU entries (invoking hooks) until
    satisfied". *)
Definition setMaxWeight (n : N) (c : Cache) : Cache :=
  evictFor 0
    {| entries := entries c; currentWeight := currentWeight c; maxWeight := n;
       hooked := hooked c |}.

(** The public operations, and runs of them. *)
Inductive Op :=
| Put (key : Key) (value : Value)
| Get (key : Key)
| Remove (key : Key)
| Clear
| SetMaxWeight (n : N).

Definition step (op : Op) (c : Cache) : Cache :=
  match op with
  | Put k v => snd (put k v c)
  | Get k => snd (get k c)
  | Remove k => remove k c
  | Clear => clear c
  | SetMaxWeight n => setMaxWeight n c
  end.

Fixpoint run (ops : list Op) (c : Cache) : Cache :=
  match ops with
  | [] => c
  | op :: ops' => run ops' (step op c)
  end.

(** [currentWeight] is the weight of what the cache holds. *)
Definition accounted (c : Cache) : Prop :=
  currentWeight c = totalWeight (entries c).

(** The invariant of the cache: the weight is accounted for and within the
    budget. *)
Definition within (c : Cache) : Prop :=
  accounted c /\ currentWeight c <= maxWeight c.

End Cache.

Arguments Cache : clear implicits.
Arguments Op : clear implicits.

End BoundedRecencyCache.

(** ** The layer pool, [LayerCache.h] *)

Module LayerCache.

Local Open Scope N_scope.

(** Modelled from the spec: [LayerSize] and [Layer] come from Layer.h, which
    is not among the sources: "Key: [LayerSize{width, height}], compared by
    value. Value: owning handle to a GPU layer object exposing [byteSize()]". *)
Record LayerSize := mkLayerSize { width : N; height : N }.

Record Layer := mkLayer { handle : N; byteSize : N }.

#[export] Instance LayerSize_eq_dec : EqDecision LayerSize.
Proof. solve_decision. Defined.

Abbreviation LayerCache := (BoundedRecencyCache.Cache LayerSize Layer).

(** [LayerCache::LayerCache(uint32_t maxByteSize)]. *)
Definition create (maxByteSize : N) : LayerCache :=
  BoundedRecencyCache.create maxByteSize.

(** [Layer* get(LayerSize& size)], the spec's [acquire]. *)
Definition get (size : LayerSize) (c : LayerCache) : option Layer * LayerCache :=
  BoundedRecencyCache.get byteSize size c.

(** [bool put(LayerSize& size, Layer* layer)], the spec's [release]. *)
Definition put (size : LayerSize) (layer : Layer) (c : LayerCache)
    : bool * LayerCache :=
  BoundedRecencyCache.put byteSize size layer c.

(** [void clear()]. *)
Definition clear (c : LayerCache) : LayerCache := BoundedRecencyCache.clear c.

(** [void setMaxSize(uint32_t maxSize)]. *)
Definition setMaxSize (maxSize : N) (c : LayerCache) : LayerCache :=
  BoundedRecencyCache.setMaxWeight byteSize maxSize c.

(** [uint32_t getMaxSize()] and [uint32_t getSize()]. *)
Definition getMaxSize (c : LayerCache) : N := BoundedRecencyCache.maxWeight c.
Definition getSize (c : LayerCache) : N := BoundedRecencyCache.currentWeight c.

End LayerCache.

(** ** What a run of the registry asked for and what it did *)

Module RegistryTrace.
Import ResourceCache Registry.

(** The reference counting of the parts of a resource that the overloads for
    bitmaps and shaders do before they reach the table. *)
Definition prelude (op : Op) : list Effect :=
  match op with
  | IncrementRefcountBitmap r => [SafeRef (PixelRefOf r); SafeRef (ColorTableOf r)]
  | IncrementRefcountShader r => [SafeRef (SkShaderOf r)]
  | DecrementRefcountBitmap r =>
      [SafeUnref (PixelRefOf r); SafeUnref (ColorTableOf r)]
  | DecrementRefcountShader r => [SafeUnref (SkShaderOf r)]
  | _ => []
  end.

(** What a call does to a resource that is not in the table. *)
Definition untrackedEffects (op : Op) (w : World) : list Effect :=
  match op with
  | RecycleBitmap r => [SetPixelsNull r]
  | DestructorBitmap r => whenInstance w (TextureCacheRemove r) ++ [Delete r]
  | DestructorMatrix r | DestructorPaint r => [Delete r]
  | DestructorShader r =>
      whenInstance w (GradientCacheRemove (SkShaderOf r)) ++ [Delete r]
  | _ => []
  end.

(** The cleanup of an entry whose count is zero once a call has written it. *)
Definition settleEffects (w : World) (r : Z) (ref : ResourceReference)
    : list Effect :=
  if refCount ref =? 0 then cleanupEffects w r ref else [].

(** Everything the call [op], made in [w], adds to the trace. *)
Definition emitted (op : Op) (w : World) : list Effect :=
  prelude op
  ++ match mCache w !! target op with
     | None => untrackedEffects op w
     | Some ref =>
         match kind op with
         | Increment _ => []
         | Decrement =>
             settleEffects w (target op) (withRefCount (refCount ref - 1) ref)
         | RecycleRequest => settleEffects w (target op) (withRecycled true ref)
         | DestroyRequest => settleEffects w (target op) (withDestroyed true ref)
         end
     end.

Definition isDestroyOf (r : Z) (op : Op) : bool :=
  match kind op with
  | DestroyRequest => bool_decide (target op = r)
  | _ => false
  end.

Definition isRecycleOf (r : Z) (op : Op) : bool :=
  match kind op with
  | RecycleRequest => bool_decide (target op = r)
  | _ => false
  end.

(** How often a run calls a destructor, or a recycle, on [r]. *)
Definition destroyCalls (r : Z) (ops : list Op) : nat :=
  length (List.filter (isDestroyOf r) ops).

Definition recycleCalls (r : Z) (ops : list Op) : nat :=
  length (List.filter (isRecycleOf r) ops).

(** The deletion, or the release of pixels, that the flags of the entry of
    [r] still promise. *)
Definition pendingDestroy (r : Z) (w : World) : nat :=
  match mCache w !! r with
  | Some ref => if destroyed ref then 1 else 0
  | None => 0
  end.

Definition pendingRecycle (r : Z) (w : World) : nat :=
  match mCache w !! r with
  | Some ref => if recycled ref then 1 else 0
  | None => 0
  end.

(** The entry of [r] is in the table after every call of the run. *)
Fixpoint staysTracked (r : Z) (ops : list Op) (w : World) : bool :=
  match ops with
  | [] => true
  | op :: ops' => tracked r (step op w) && staysTracked r ops' (step op w)
  end.

End RegistryTrace.

(** ** RenderScript scripts, [libs/rs/rsScriptC.cpp] *)

Module ScriptC.

Local Open Scope string_scope.
Local Open Scope Z_scope.
Local Open Scope list_scope.

(** Pointers are addresses, [NULL] is 0.  The classes this file uses are
    declared in headers that are not among the sources (rsAllocation.h,
    rsScript.h, rsContext.h, rs_hal.h); what is modelled of each is what
    rsScriptC.cpp reads and writes.  An [ObjectBaseRef] is the pointer it
    holds: [get()] reads it, [set(p)] writes it, [clear()] writes [NULL].
    [LOGE] and [LOGV] only write to the log and are left out. *)

(** An [Allocation]: its address, and what [getPtr()] and [getType()]
    return. *)
Record Allocation := mkAllocation {
  allocation : Z;
  getPtr : Z;
  getType : Z
}.

(** [mHal.info], which the driver fills in. *)
Record Info := mkInfo {
  root : Z;
  isThreadable : bool;
  exportedVariableCount : nat;
  exportedFunctionCount : Z;
  exportedPragmas : list (string * string)
    (* exportedPragmaKeyList[i], exportedPragmaValueList[i],
       i < exportedPragmaCount *)
}.

(** [mEnviroment]. *)
Record Enviroment := mkEnviroment {
  mStartTimeMillis : Z;
  mFragmentStore : Z;
  mFragment : Z;
  mVertex : Z;
  mRaster : Z
}.

(** A [ScriptC].  [mSlots] and [mTypes] are the arrays of
    [exportedVariableCount] references that [runCompiler] allocates; a slot
    is the allocation it refers to, if any. *)
Record Script := mkScript {
  info : Info;
  mEnviroment : Enviroment;
  mSlots : list (option Allocation);
  mTypes : list Z
}.

Inductive RsError := RS_ERROR_BAD_SCRIPT.

(** The calls a script makes on its context and, through
    [rsc->mHal.funcs.script], on the driver. *)
Inductive Call :=
| SetError (e : RsError) (msg : string)
| SetProgramStore (p : Z)
| SetProgramFragment (p : Z)
| SetProgramVertex (p : Z)
| SetProgramRaster (p : Z)
| HalInit (resName cacheDir : string) (bitcode bitcodeLen : Z)
| HalInvokeInit
| HalSetGlobalBind (slot : nat) (ptr : Z)
| HalInvokeRoot
| HalInvokeFunction (slot data len : Z).

(** What the script sees of a [Context]: the default programs it hands out
    and the calls made on it so far. *)
Record Context := mkContext {
  getDefaultProgramFragment : Z;
  getDefaultProgramVertex : Z;
  getDefaultProgramStore : Z;
  getDefaultProgramRaster : Z;
  calls : list Call
}.

Definition call (c : list Call) (rsc : Context) : Context :=
  {| getDefaultProgramFragment := getDefaultProgramFragment rsc;
     getDefaultProgramVertex := getDefaultProgramVertex rsc;
     getDefaultProgramStore := getDefaultProgramStore rsc;
     getDefaultProgramRaster := getDefaultProgramRaster rsc;
     calls := calls rsc ++ c |}.

(** [mSlots[ct].get()] and [mTypes[ct].get()]; past the end of the arrays,
    where the code must not read, they read as [NULL]. *)
Definition slotAt (s : Script) (ct : nat) : option Allocation :=
  default None (mSlots s !! ct).

Definition typeAt (s : Script) (ct : nat) : Z := default 0 (mTypes s !! ct).

Definition withTypes (types : list Z) (s : Script) : Script :=
  {| info := info s; mEnviroment := mEnviroment s; mSlots := mSlots s;
     mTypes := types |}.

Definition withEnviroment (e : Enviroment) (s : Script) : Script :=
  {| info := info s; mEnviroment := e; mSlots := mSlots s; mTypes := mTypes s |}.

Definition withStartTime (now : Z) (e : Enviroment) : Enviroment :=
  {| mStartTimeMillis := now; mFragmentStore := mFragmentStore e;
     mFragment := mFragment e; mVertex := mVertex e; mRaster := mRaster e |}.

(** The body of the loop of [ScriptC::setupScript], for the variable [ct]. *)
Definition setupVariable (st : Script * Context) (ct : nat) : Script * Context :=
  let '(s, rsc) := st in
  let s1 :=
    match slotAt s ct with
    | Some a =>
        if typeAt s ct =? 0 then withTypes (<[ct := getType a]> (mTypes s)) s
        else s
    | None => s
    end in
  if typeAt s1 ct =? 0 then (s1, rsc)
  else
    let ptr := match slotAt s1 ct with Some a => getPtr a | None => 0 end in
    (s1, call [HalSetGlobalBind ct ptr] rsc).

(** [ScriptC::setupScript]; [now] is the monotonic clock in milliseconds. *)
Definition setupScript (now : Z) (s : Script) (rsc : Context) : Script * Context :=
  let s0 := withEnviroment (withStartTime now (mEnviroment s)) s in
  fold_left setupVariable (seq 0 (exportedVariableCount (info s0))) (s0, rsc).

(** The loop of [ScriptC::ptrToAllocation], over the variables [cts]. *)
Fixpoint findAllocation (s : Script) (ptr : Z) (cts : list nat)
    : option Allocation :=
  match cts with
  | [] => None
  | ct :: cts' =>
      match slotAt s ct with
      | None => findAllocation s ptr cts'
      | Some a => if getPtr a =? ptr then Some a else findAllocation s ptr cts'
      end
  end.

(** [ScriptC::ptrToAllocation]. *)
Definition ptrToAllocation (s : Script) (ptr : Z) : option Allocation :=
  if ptr =? 0 then None
  else findAllocation s ptr (seq 0 (exportedVariableCount (info s))).

Definition whenSet (p : Z) (c : Call) : list Call :=
  if p =? 0 then [] else [c].

(** [ScriptC::setupGLState]. *)
Definition setupGLState (s : Script) (rsc : Context) : Context :=
  let e := mEnviroment s in
  call (whenSet (mFragmentStore e) (SetProgramStore (mFragmentStore e))
        ++ whenSet (mFragment e) (SetProgramFragment (mFragment e))
        ++ whenSet (mVertex e) (SetProgramVertex (mVertex e))
        ++ whenSet (mRaster e) (SetProgramRaster (mRaster e))) rsc.

(** Conversion to [uint32_t]. *)
Definition uint32 (v : Z) : Z := v mod 2 ^ 32.

(** [ScriptC::run]; [ret] is what the driver's [invokeRoot] returns, which
    [run] stores in a [uint32_t] and returns as such. *)
Definition run (ret : Z) (now : Z) (s : Script) (rsc : Context)
    : Z * Script * Context :=
  if root (info s) =? 0
  then (0, s, call [SetError RS_ERROR_BAD_SCRIPT "Attempted to run bad script"] rsc)
  else
    let '(s1, rsc1) := setupScript now s (setupGLState s rsc) in
    (uint32 ret, s1, call [HalInvokeRoot] rsc1).


Definition withFragment (p : Z) (e : Enviroment) : Enviroment :=
  {| mStartTimeMillis := mStartTimeMillis e; mFragmentStore := mFragmentStore e;
     mFragment := p; mVertex := mVertex e; mRaster := mRaster e |}.

Definition withVertex (p : Z) (e : Enviroment) : Enviroment :=
  {| mStartTimeMillis := mStartTimeMillis e; mFragmentStore := mFragmentStore e;
     mFragment := mFragment e; mVertex := p; mRaster := mRaster e |}.

Definition withFragmentStore (p : Z) (e : Enviroment) : Enviroment :=
  {| mStartTimeMillis := mStartTimeMillis e; mFragmentStore := p;
     mFragment := mFragment e; mVertex := mVertex e; mRaster := mRaster e |}.

Definition withRaster (p : Z) (e : Enviroment) : Enviroment :=
  {| mStartTimeMillis := mStartTimeMillis e; mFragmentStore := mFragmentStore e;
     mFragment := mFragment e; mVertex := mVertex e; mRaster := p |}.

(** One of the four [state...] pragmas: "default" keeps the program,
    "parent" clears it with [clearProgram], anything else fails. *)
Definition statePragma (value : string) (clearProgram : Enviroment -> Enviroment)
    (e : Enviroment) : option Enviroment :=
  if String.eqb value "default" then Some e
  else if String.eqb value "parent" then Some (clearProgram e)
  else None.

(** One turn of the pragma loop of [ScriptC::runCompiler]: the environment to
    go on with, or [None] where the loop returns false. *)
Definition applyPragma (key value : string) (e : Enviroment) : option Enviroment :=
  if String.eqb key "version"
  then if String.eqb value "1" then Some e else None
  else if String.eqb key "stateVertex" then statePragma value (withVertex 0) e
  else if String.eqb key "stateRaster" then statePragma value (withRaster 0) e
  else if String.eqb key "stateFragment" then statePragma value (withFragment 0) e
  else if String.eqb key "stateStore" then statePragma value (withFragmentStore 0) e
  else Some e.

(** The pragma loop: whether it ran to its end, and the environment it left,
    which on failure holds what the earlier pragmas did. *)
Fixpoint applyPragmas (pragmas : list (string * string)) (e : Enviroment)
    : bool * Enviroment :=
  match pragmas with
  | [] => (true, e)
  | (key, value) :: rest =>
      match applyPragma key value e with
      | Some e' => applyPragmas rest e'
      | None => (false, e)
      end
  end.

(** [ScriptC::runCompiler].  The script passed in holds in [info] what the
    driver's [init] fills in. *)
Definition runCompiler (resName cacheDir : string) (bitcode bitcodeLen : Z)
    (s : Script) (rsc : Context) : bool * Script * Context :=
  let rsc1 := call [HalInit resName cacheDir bitcode bitcodeLen] rsc in
  let e :=
    {| mStartTimeMillis := mStartTimeMillis (mEnviroment s);
       mFragmentStore := getDefaultProgramStore rsc1;
       mFragment := getDefaultProgramFragment rsc1;
       mVertex := getDefaultProgramVertex rsc1;
       mRaster := getDefaultProgramRaster rsc1 |} in
  let rsc2 := call [HalInvokeInit] rsc1 in
  let '(ok, e') := applyPragmas (exportedPragmas (info s)) e in
  let s1 := withEnviroment e' s in
  if ok
  then (true,
        {| info := info s1; mEnviroment := mEnviroment s1;
           mSlots := replicate (exportedVariableCount (info s1)) None;
           mTypes := replicate (exportedVariableCount (info s1)) 0 |},
        rsc2)
  else (false, s1, rsc2).

(** A row of the symbol tables: [mPtr] and [threadable]. *)
Record SymbolTable_t := mkSymbol {
  mPtr : Z;
  threadable : bool
}.

Section SymbolLookup.

(** [ScriptCState::lookupSymbol], [lookupSymbolCL] and [lookupSymbolGL],
    whose tables are in files that are not among the sources. *)
Variables lookupSymbol lookupSymbolCL lookupSymbolGL
  : string -> option SymbolTable_t.

Definition withThreadable (b : bool) (i : Info) : Info :=
  {| root := root i; isThreadable := b;
     exportedVariableCount := exportedVariableCount i;
     exportedFunctionCount := exportedFunctionCount i;
     exportedPragmas := exportedPragmas i |}.

Definition withInfo (i : Info) (s : Script) : Script :=
  {| info := i; mEnviroment := mEnviroment s; mSlots := mSlots s;
     mTypes := mTypes s |}.

(** The three tables in the order in which [symbolLookup] asks them. *)
Definition findSymbol (name : string) : option SymbolTable_t :=
  match lookupSymbol name with
  | Some sym => Some sym
  | None =>
      match lookupSymbolCL name with
      | Some sym => Some sym
      | None => lookupSymbolGL name
      end
  end.

(** [symbolLookup], the callback the compiler resolves names with: the
    pointer it returns and the script it leaves. *)
Definition symbolLookup (s : Script) (name : string) : Z * Script :=
  if String.eqb name "__isThreadable"
  then (if isThreadable (info s) then 1 else 0, s)
  else if String.eqb name "__clearThreadable"
  then (0, withInfo (withThreadable false (info s)) s)
  else
    match findSymbol name with
    | Some sym =>
        (mPtr sym,
         withInfo (withThreadable (isThreadable (info s) && threadable sym)
                     (info s)) s)
    | None => (0, s)
    end.

(** The script after the compiler looked a list of names up. *)
Definition lookupAll (names : list string) (s : Script) : Script :=
  fold_left (fun s name => snd (symbolLookup s name)) names s.

End SymbolLookup.

(** The type of the variable [ct] once [setupScript] has run: the type it
    had, or else the type of the allocation in its slot. *)
Definition resolvedType (s : Script) (ct : nat) : Z :=
  if typeAt s ct =? 0
  then match slotAt s ct with Some a => getType a | None => 0 end
  else typeAt s ct.

(** The pointer [setupScript] binds the variable [ct] to. *)
Definition boundPtr (s : Script) (ct : nat) : Z :=
  match slotAt s ct with Some a => getPtr a | None => 0 end.

(** The binding of the variable [ct], made when it has a type. *)
Definition bindCall (s : Script) (ct : nat) : list Call :=
  if resolvedType s ct =? 0 then [] else [HalSetGlobalBind ct (boundPtr s ct)].


(** The pragmas the loop of [runCompiler] accepts. *)
Definition isStateKey (key : string) : bool :=
  String.eqb key "stateVertex" || String.eqb key "stateRaster"
  || String.eqb key "stateFragment" || String.eqb key "stateStore".

Definition validPragma (p : string * string) : bool :=
  let '(key, value) := p in
  if String.eqb key "version" then String.eqb value "1"
  else if isStateKey key
  then String.eqb value "default" || String.eqb value "parent"
  else true.

(** The pragma [p] asks for the program [key] of the parent. *)
Definition asksParent (key : string) (p : string * string) : bool :=
  String.eqb (fst p) key && String.eqb (snd p) "parent".

Definition program (asked : bool) (default : Z) : Z :=
  if asked then 0 else default.

End ScriptC.

(** ** RenderScript types, [libs/rs/rsType.cpp] *)

Module RsType.

Local Open Scope string_scope.
Local Open Scope Z_scope.
Local Open Scope list_scope.

(** rsType.h, rsElement.h, rsComponent.h and RenderScript.h are not among the
    sources; what is modelled of their classes is what rsType.cpp reads and
    writes.  [RsDataType] has the five data types rsType.cpp names and stands
    for every other one with its number. *)
Inductive RsDataType :=
| RS_TYPE_FLOAT_32
| RS_TYPE_UNSIGNED_8
| RS_TYPE_UNSIGNED_16
| RS_TYPE_SIGNED_8
| RS_TYPE_SIGNED_16
| RS_TYPE_other (n : Z).

(** A field of an element: [getFieldName(i)], [getFieldArraySize(i)],
    [getFieldOffsetBytes(i)] and, of [getField(i)->getComponent()],
    [getType()], [getVectorSize()] and [getGLType()]. *)
Record Field := mkField {
  getFieldName : string;
  getFieldArraySize : Z;
  getFieldOffsetBytes : Z;
  getType : RsDataType;
  getVectorSize : Z;
  getGLType : Z
}.

Record Element := mkElement {
  getSizeBytes : Z;
  getFields : list Field
}.

(** [VertexArray::Attrib]. *)
Record Attrib := mkAttrib {
  size : Z;
  offset : Z;
  type : Z;
  normalized : bool;
  name : string
}.

(** [Type::LOD]. *)
Record LOD := mkLOD {
  mX : Z;
  mY : Z;
  mZ : Z;
  mOffset : Z
}.

(** A [Type].  [mElement], [mLODs] and [mAttribs] are [None] where the
    pointer is [NULL]. *)
Record Type_ := mkType {
  mDimX : Z;
  mDimY : Z;
  mDimZ : Z;
  mDimLOD : bool;
  mFaces : bool;
  mElement : option Element;
  mLODs : option (list LOD);
  mLODCount : Z;
  mMipChainSizeBytes : Z;
  mTotalSizeBytes : Z;
  mAttribs : option (list Attrib);
  mAttribsSize : Z
}.

(** [Type::clear]: the array of levels is freed, [mLODCount] stays. *)
Definition clear (t : Type_) : Type_ :=
  {| mDimX := 0; mDimY := 0; mDimZ := 0; mDimLOD := false; mFaces := false;
     mElement := None;
     mLODs := None; mLODCount := mLODCount t;
     mMipChainSizeBytes := mMipChainSizeBytes t;
     mTotalSizeBytes := mTotalSizeBytes t;
     mAttribs := mAttribs t; mAttribsSize := mAttribsSize t |}.

(** Arithmetic on [uint32_t]. *)
Definition uint32 (v : Z) : Z := v mod 2 ^ 32.

(** [rsMax] of rsUtils.h, the larger of its two arguments. *)
Definition rsMax (a b : Z) : Z := Z.max a b.

(** One operand of [Type::getIsNp2]: [x && (x & (x-1))]. *)
Definition np2 (x : Z) : bool :=
  if x =? 0 then false else negb (Z.land x (uint32 (x - 1)) =? 0).

(** [Type::getIsNp2]. *)
Definition getIsNp2 (t : Type_) : bool :=
  if np2 (mDimX t) then true
  else if np2 (mDimY t) then true
  else if np2 (mDimZ t) then true
  else false.

(** [Type::isValidGLComponent], on the field itself. *)
Definition isValidGLComponent (f : Field) : bool :=
  match getFieldName f with
  | String "#"%char _ => false
  | _ =>
      match getType f with
      | RS_TYPE_other _ => false
      | _ => getFieldArraySize f =? 1
      end
  end.

Definition isFloat32 (dt : RsDataType) : bool :=
  match dt with RS_TYPE_FLOAT_32 => true | _ => false end.

Section Compute.

(** The width of [size_t] in bits; [rsFindHighBit] of rsUtils.h; the macro
    [RS_SHADER_ATTR]. *)
Variable sizeBits : Z.
Variable rsFindHighBit : Z -> Z.
Variable RS_SHADER_ATTR : string.

(** Arithmetic on [size_t]. *)
Definition size_t (v : Z) : Z := v mod 2 ^ sizeBits.

(** The attribute [Type::makeGLComponents] makes of a valid field. *)
Definition attribOf (f : Field) : Attrib :=
  {| size := getVectorSize f;
     offset := getFieldOffsetBytes f;
     type := getGLType f;
     normalized := negb (isFloat32 (getType f));
     name := RS_SHADER_ATTR ++ getFieldName f |}.

(** [Type::makeGLComponents]: the first loop counts the valid fields, the
    second fills [mAttribs[userNum]] for each in turn. *)
Definition makeGLComponents (e : Element) (t : Type_) : Type_ :=
  let valid := List.filter isValidGLComponent (getFields e) in
  let count := uint32 (Z.of_nat (length valid)) in
  {| mDimX := mDimX t; mDimY := mDimY t; mDimZ := mDimZ t;
     mDimLOD := mDimLOD t; mFaces := mFaces t; mElement := mElement t;
     mLODs := mLODs t; mLODCount := mLODCount t;
     mMipChainSizeBytes := mMipChainSizeBytes t;
     mTotalSizeBytes := mTotalSizeBytes t;
     mAttribs := if count =? 0 then None else Some (map attribOf valid);
     mAttribsSize := count |}.

(** [if (t > 1) t >>= 1]. *)
Definition halve (t : Z) : Z := if 1 <? t then Z.shiftr t 1 else t.

(** The bytes the loop of [Type::compute] adds to [offset] for one level. *)
Definition levelBytes (elementSize tx ty tz : Z) : Z :=
  size_t (uint32 (uint32 (tx * rsMax ty 1) * rsMax tz 1) * elementSize).

(** The loop of [Type::compute], [n] levels from the level [(tx, ty, tz)] at
    [offset]: the levels it writes and the offset it ends with. *)
Fixpoint lodLoop (n : nat) (elementSize tx ty tz offset : Z) : list LOD * Z :=
  match n with
  | O => ([], offset)
  | S n' =>
      let '(rest, final) :=
        lodLoop n' elementSize (halve tx) (halve ty) (halve tz)
          (size_t (offset + levelBytes elementSize tx ty tz)) in
      ({| mX := tx; mY := ty; mZ := tz; mOffset := offset |} :: rest, final)
  end.

(** Writing [levels] over the front of the array [mLODs]: [None] where the
    array is [NULL] or too short for them. *)
Definition writeLODs (array : option (list LOD)) (levels : list LOD)
    : option (option (list LOD)) :=
  match array with
  | None => match levels with [] => Some None | _ => None end
  | Some old =>
      if (length old <? length levels)%nat then None
      else Some (Some (levels ++ drop (length levels) old))
  end.

(** The number of levels [Type::compute] decides on. *)
Definition lodCount (t : Type_) : Z :=
  if mDimLOD t
  then
    let l2x := uint32 (rsFindHighBit (mDimX t) + 1) in
    let l2y := uint32 (rsFindHighBit (mDimY t) + 1) in
    let l2z := uint32 (rsFindHighBit (mDimZ t) + 1) in
    rsMax (rsMax l2x l2y) l2z
  else 1.

(** [Type::compute]: [None] where it reads through a [NULL] element or
    writes past the array of levels. *)
Definition compute (t : Type_) : option Type_ :=
  match mElement t with
  | None => None
  | Some e =>
      let count := lodCount t in
      let array :=
        if count =? mLODCount t then mLODs t
        else Some (replicate (Z.to_nat count) (mkLOD 0 0 0 0)) in
      let '(levels, chain) :=
        lodLoop (Z.to_nat count) (getSizeBytes e) (mDimX t) (mDimY t) (mDimZ t) 0 in
      match writeLODs array levels with
      | None => None
      | Some lods =>
          Some (makeGLComponents e
                  {| mDimX := mDimX t; mDimY := mDimY t; mDimZ := mDimZ t;
                     mDimLOD := mDimLOD t; mFaces := mFaces t;
                     mElement := mElement t;
                     mLODs := lods; mLODCount := count;
                     mMipChainSizeBytes := chain;
                     mTotalSizeBytes := if mFaces t then size_t (chain * 6) else chain;
                     mAttribs := mAttribs t; mAttribsSize := mAttribsSize t |})
      end
  end.

(** [mLODs[lod]] and the size of the element, or [None] where one of the
    pointers is [NULL] or [lod] is past the array. *)
Definition level (t : Type_) (lod : Z) : option (LOD * Z) :=
  match mLODs t, mElement t with
  | Some lods, Some e =>
      if lod <? 0 then None
      else match lods !! Z.to_nat lod with
           | Some l => Some (l, getSizeBytes e)
           | None => None
           end
  | _, _ => None
  end.

(** [Type::getLODOffset], with one, two and three coordinates. *)
Definition getLODOffset1 (t : Type_) (lod x : Z) : option Z :=
  match level t lod with
  | Some (l, s) => Some (uint32 (mOffset l + size_t (x * s)))
  | None => None
  end.

Definition getLODOffset2 (t : Type_) (lod x y : Z) : option Z :=
  match level t lod with
  | Some (l, s) =>
      Some (uint32 (mOffset l + size_t (size_t (x + size_t (y * mX l)) * s)))
  | None => None
  end.

Definition getLODOffset3 (t : Type_) (lod x y z : Z) : option Z :=
  match level t lod with
  | Some (l, s) =>
      Some (uint32
              (mOffset l
               + size_t (size_t (size_t (x + size_t (y * mX l))
                                 + size_t (size_t (z * mX l) * mY l))
                         * s)))
  | None => None
  end.

End Compute.

(** The dimension of the level [l] of a mipmap chain that starts at [v]. *)
Definition mipDim (l : nat) (v : Z) : Z :=
  if v =? 0 then 0 else Z.max 1 (v / 2 ^ Z.of_nat l).

(** The bytes of the level [l], and of the levels before it, with exact
    arithmetic. *)
Definition mipBytes (t : Type_) (elementSize : Z) (l : nat) : Z :=
  mipDim l (mDimX t) * Z.max (mipDim l (mDimY t)) 1
  * Z.max (mipDim l (mDimZ t)) 1 * elementSize.

Fixpoint mipOffset (t : Type_) (elementSize : Z) (l : nat) : Z :=
  match l with
  | O => 0
  | S l' => mipOffset t elementSize l' + mipBytes t elementSize l'
  end.

(** The array of levels has [mLODCount] entries, or is [NULL] with none: what
    the constructor sets up and [compute] keeps. *)
Definition lodsMatch (t : Type_) : Prop :=
  match mLODs t with
  | None => mLODCount t = 0
  | Some lods => Z.of_nat (length lods) = mLODCount t
  end.

(** The level [l] of the mipmap chain of [t], with exact arithmetic. *)
Definition mipLevel (t : Type_) (elementSize : Z) (l : nat) : LOD :=
  {| mX := mipDim l (mDimX t); mY := mipDim l (mDimY t);
     mZ := mipDim l (mDimZ t); mOffset := mipOffset t elementSize l |}.

(** A dimension is zero or a power of two. *)
Definition powerOfTwoOrZero (v : Z) : Prop :=
  v = 0 \/ exists k, 0 <= k /\ v = 2 ^ k.

(** The dimensions are values of [uint32_t]. *)
Definition dimsInRange (t : Type_) : Prop :=
  0 <= mDimX t < 2 ^ 32 /\ 0 <= mDimY t < 2 ^ 32 /\ 0 <= mDimZ t < 2 ^ 32.

End RsType.

(** * Properties of the registry *)

Module RegistryFacts.
Import ResourceCache Registry.

(** ** What each function does to the table and to the trace *)

Lemma tracked_nonempty (m : gmap Z ResourceReference) r ref :
  m !! r = Some ref -> bool_decide (size m = 0%nat) = false.
Proof.
  intros Hr. apply bool_decide_eq_false. intros Hsize.
  apply map_size_empty_iff in Hsize. subst m. by rewrite lookup_empty in Hr.
Qed.

Lemma incrementRefcount_tracked w r t ref :
  mCache w !! r = Some ref ->
  incrementRefcount r t w
  = setCache (<[r := withRefCount (refCount ref + 1) ref]> (mCache w)) w.
Proof.
  intros Hr. unfold incrementRefcount. rewrite Hr.
  by rewrite (tracked_nonempty _ _ _ Hr).
Qed.

Lemma incrementRefcount_untracked w r t :
  mCache w !! r = None ->
  incrementRefcount r t w
  = setCache (<[r := withRefCount 1 (newResourceReference t)]> (mCache w)) w.
Proof.
  intros Hr. unfold incrementRefcount. rewrite Hr. cbn.
  by rewrite insert_insert_eq.
Qed.

Lemma deleteResourceReference_spec r ref w :
  deleteResourceReference r ref w
  = {| mCache := delete r (mCache w); hasInstance := hasInstance w;
       effects := effects w ++ cleanupEffects w r ref |}.
Proof.
  unfold deleteResourceReference, cleanupEffects.
  unfold teardown, whenInstance, emit, setCache.
  destruct (recycled ref && isBitmap (resourceType ref)), (destroyed ref);
    destruct (resourceType ref), (hasInstance w); cbn;
    rewrite ?app_nil_r, <- ?app_assoc; reflexivity.
Qed.

Lemma settle_zero r ref w :
  refCount ref = 0 ->
  settle r ref w
  = {| mCache := delete r (mCache w); hasInstance := hasInstance w;
       effects := effects w ++ cleanupEffects w r ref |}.
Proof.
  intros Hz. unfold settle. rewrite Hz. cbn [Z.eqb].
  rewrite deleteResourceReference_spec. cbn.
  by rewrite delete_insert_eq.
Qed.

Lemma settle_nonzero r ref w :
  refCount ref <> 0 ->
  settle r ref w = setCache (<[r := ref]> (mCache w)) w.
Proof.
  intros Hz. unfold settle. by apply Z.eqb_neq in Hz as ->.
Qed.

Lemma decrementRefcount_tracked w r ref :
  mCache w !! r = Some ref ->
  decrementRefcount r w = settle r (withRefCount (refCount ref - 1) ref) w.
Proof. intros Hr. unfold decrementRefcount. by rewrite Hr. Qed.

Lemma recycle_tracked w r ref :
  mCache w !! r = Some ref ->
  recycle r w = settle r (withRecycled true ref) w.
Proof. intros Hr. unfold recycle. by rewrite Hr. Qed.

Lemma recycleBitmap_tracked w r ref :
  mCache w !! r = Some ref -> recycleBitmap r w = recycle r w.
Proof. intros Hr. unfold recycleBitmap. by rewrite Hr. Qed.

Lemma destructorWith_tracked u w r ref :
  mCache w !! r = Some ref ->
  destructorWith u r w = settle r (withDestroyed true ref) w.
Proof. intros Hr. unfold destructorWith. by rewrite Hr. Qed.

Lemma destructorWith_untracked u w r :
  mCache w !! r = None -> destructorWith u r w = emit (u w) w.
Proof. intros Hr. unfold destructorWith. by rewrite Hr. Qed.

(** ** Every entry counts at least one reference *)

Lemma allReferenced_insert w r ref :
  allReferenced w -> 1 <= refCount ref ->
  allReferenced (setCache (<[r := ref]> (mCache w)) w).
Proof.
  intros Hall Href r' ref'. cbn. rewrite lookup_insert.
  case_decide; [intros [= <-]; done | apply Hall].
Qed.

Lemma allReferenced_settle w r ref :
  allReferenced w -> 0 <= refCount ref -> allReferenced (settle r ref w).
Proof.
  intros Hall Href. destruct (Z.eq_dec (refCount ref) 0) as [Hz|Hz].
  - rewrite settle_zero by done. intros r' ref'. cbn.
    rewrite lookup_delete. case_decide; [done | apply Hall].
  - rewrite settle_nonzero by done. apply allReferenced_insert; [done | lia].
Qed.

Lemma allReferenced_emit w es : allReferenced w -> allReferenced (emit es w).
Proof. done. Qed.

Lemma allReferenced_incrementRefcount w r t :
  allReferenced w -> allReferenced (incrementRefcount r t w).
Proof.
  intros Hall. destruct (mCache w !! r) as [ref|] eqn:Hr.
  - rewrite (incrementRefcount_tracked _ _ _ _ Hr).
    apply allReferenced_insert; [done |]. cbn. specialize (Hall _ _ Hr). lia.
  - rewrite (incrementRefcount_untracked _ _ _ Hr).
    by apply allReferenced_insert.
Qed.

Lemma allReferenced_decrementRefcount w r :
  allReferenced w -> allReferenced (decrementRefcount r w).
Proof.
  intros Hall. destruct (mCache w !! r) as [ref|] eqn:Hr.
  - rewrite (decrementRefcount_tracked _ _ _ Hr).
    apply allReferenced_settle; [done |]. cbn. specialize (Hall _ _ Hr). lia.
  - unfold decrementRefcount. by rewrite Hr.
Qed.

Lemma allReferenced_recycle w r :
  allReferenced w -> allReferenced (recycle r w).
Proof.
  intros Hall. destruct (mCache w !! r) as [ref|] eqn:Hr.
  - rewrite (recycle_tracked _ _ _ Hr).
    apply allReferenced_settle; [done |]. cbn. specialize (Hall _ _ Hr). lia.
  - unfold recycle. by rewrite Hr.
Qed.

Lemma allReferenced_destructorWith u w r :
  allReferenced w -> allReferenced (destructorWith u r w).
Proof.
  intros Hall. destruct (mCache w !! r) as [ref|] eqn:Hr.
  - rewrite (destructorWith_tracked _ _ _ _ Hr).
    apply allReferenced_settle; [done |]. cbn. specialize (Hall _ _ Hr). lia.
  - by rewrite (destructorWith_untracked _ _ _ Hr).
Qed.

Lemma allReferenced_step op w : allReferenced w -> allReferenced (step op w).
Proof.
  intros Hall. destruct op; cbn [step];
    unfold incrementRefcountBitmap, incrementRefcountMatrix,
      incrementRefcountPaint, incrementRefcountShader,
      decrementRefcountBitmap, decrementRefcountShader,
      destructorBitmap, destructorMatrix, destructorPaint, destructorShader;
    auto using allReferenced_incrementRefcount, allReferenced_decrementRefcount,
      allReferenced_recycle, allReferenced_destructorWith, allReferenced_emit.
  unfold recycleBitmap. destruct (mCache w !! resource);
    auto using allReferenced_recycle, allReferenced_emit.
Qed.

Lemma allReferenced_run ops w : allReferenced w -> allReferenced (run ops w).
Proof.
  revert w. induction ops as [|op ops IH]; intros w Hall; cbn [run];
    auto using allReferenced_step.
Qed.

Lemma allReferenced_initial instance : allReferenced (initial instance).
Proof. intros r ref. cbn. by rewrite lookup_empty. Qed.

(** ** The table as one state machine per identity *)

Lemma settle_lookup r ref w r' :
  mCache (settle r ref w) !! r'
  = if decide (r' = r) then keep ref else mCache w !! r'.
Proof.
  unfold settle, keep. destruct (refCount ref =? 0).
  - rewrite deleteResourceReference_spec. cbn. rewrite delete_insert_eq.
    rewrite lookup_delete. repeat case_decide; congruence.
  - cbn. rewrite lookup_insert. repeat case_decide; congruence.
Qed.

Lemma incrementRefcount_lookup r t w r' :
  mCache (incrementRefcount r t w) !! r'
  = if decide (r' = r) then entryAfter (Increment t) (mCache w !! r')
    else mCache w !! r'.
Proof.
  case_decide as Heq.
  - subst r'. destruct (mCache w !! r) as [ref|] eqn:Hr.
    + rewrite (incrementRefcount_tracked _ _ _ _ Hr). cbn.
      by rewrite lookup_insert_eq.
    + rewrite (incrementRefcount_untracked _ _ _ Hr). cbn.
      by rewrite lookup_insert_eq.
  - destruct (mCache w !! r) as [ref|] eqn:Hr.
    + rewrite (incrementRefcount_tracked _ _ _ _ Hr). cbn.
      by rewrite lookup_insert_ne.
    + rewrite (incrementRefcount_untracked _ _ _ Hr). cbn.
      by rewrite lookup_insert_ne.
Qed.

Lemma decrementRefcount_lookup r w r' :
  mCache (decrementRefcount r w) !! r'
  = if decide (r' = r) then entryAfter Decrement (mCache w !! r')
    else mCache w !! r'.
Proof.
  destruct (mCache w !! r) as [ref|] eqn:Hr.
  - rewrite (decrementRefcount_tracked _ _ _ Hr), settle_lookup.
    case_decide; [subst; by rewrite Hr | done].
  - unfold decrementRefcount. rewrite Hr.
    case_decide; [subst; by rewrite Hr | done].
Qed.

Lemma recycle_lookup r w r' :
  mCache (recycle r w) !! r'
  = if decide (r' = r) then entryAfter RecycleRequest (mCache w !! r')
    else mCache w !! r'.
Proof.
  destruct (mCache w !! r) as [ref|] eqn:Hr.
  - rewrite (recycle_tracked _ _ _ Hr), settle_lookup.
    case_decide; [subst; by rewrite Hr | done].
  - unfold recycle. rewrite Hr.
    case_decide; [subst; by rewrite Hr | done].
Qed.

Lemma destructorWith_lookup u r w r' :
  mCache (destructorWith u r w) !! r'
  = if decide (r' = r) then entryAfter DestroyRequest (mCache w !! r')
    else mCache w !! r'.
Proof.
  destruct (mCache w !! r) as [ref|] eqn:Hr.
  - rewrite (destructorWith_tracked _ _ _ _ Hr), settle_lookup.
    case_decide; [subst; by rewrite Hr | done].
  - rewrite (destructorWith_untracked _ _ _ Hr). cbn.
    case_decide; [subst; by rewrite Hr | done].
Qed.

Lemma step_lookup op w r :
  mCache (step op w) !! r
  = if decide (r = target op) then entryAfter (kind op) (mCache w !! r)
    else mCache w !! r.
Proof.
  destruct op; cbn [step target kind];
    unfold incrementRefcountBitmap, incrementRefcountMatrix,
      incrementRefcountPaint, incrementRefcountShader,
      decrementRefcountBitmap, decrementRefcountShader,
      destructorBitmap, destructorMatrix, destructorPaint, destructorShader;
    rewrite ?incrementRefcount_lookup, ?decrementRefcount_lookup,
      ?recycle_lookup, ?destructorWith_lookup; try reflexivity.
  unfold recycleBitmap. destruct (mCache w !! resource) eqn:Hr.
  - rewrite recycle_lookup. reflexivity.
  - cbn. case_decide; [subst; by rewrite Hr | done].
Qed.

Lemma step_hasInstance op w : hasInstance (step op w) = hasInstance w.
Proof.
  assert (Hsettle : forall r ref w0,
             hasInstance (settle r ref w0) = hasInstance w0).
  { intros r ref w0. unfold settle. destruct (refCount ref =? 0); [|done].
    by rewrite deleteResourceReference_spec. }
  assert (Hinc : forall r t w0,
             hasInstance (incrementRefcount r t w0) = hasInstance w0).
  { intros r t w0. unfold incrementRefcount.
    destruct (mCache w0 !! r); [destruct (bool_decide _)|]; done. }
  assert (Hdec : forall r w0, hasInstance (decrementRefcount r w0) = hasInstance w0).
  { intros r w0. unfold decrementRefcount.
    destruct (mCache w0 !! r); [apply Hsettle | done]. }
  assert (Hrec : forall r w0, hasInstance (recycle r w0) = hasInstance w0).
  { intros r w0. unfold recycle.
    destruct (mCache w0 !! r); [apply Hsettle | done]. }
  assert (Hdes : forall u r w0, hasInstance (destructorWith u r w0) = hasInstance w0).
  { intros u r w0. unfold destructorWith.
    destruct (mCache w0 !! r); [apply Hsettle | done]. }
  destruct op; cbn [step];
    unfold incrementRefcountBitmap, incrementRefcountMatrix,
      incrementRefcountPaint, incrementRefcountShader,
      decrementRefcountBitmap, decrementRefcountShader,
      destructorBitmap, destructorMatrix, destructorPaint, destructorShader;
    rewrite ?Hinc, ?Hdec, ?Hrec, ?Hdes; try reflexivity.
  unfold recycleBitmap. destruct (mCache w !! resource); [apply Hrec | done].
Qed.

Lemma tracked_step op w r :
  tracked r (step op w)
  = if decide (r = target op)
    then match entryAfter (kind op) (mCache w !! r) with
         | Some _ => true | None => false end
    else tracked r w.
Proof. unfold tracked. rewrite step_lookup. by case_decide. Qed.

(** Only an increment puts an entry into the table. *)
Lemma creates_increment r op w :
  creates r op w = true -> target op = r /\ exists t, kind op = Increment t.
Proof.
  unfold creates. rewrite tracked_step. unfold tracked.
  destruct (mCache w !! r); cbn [negb andb]; [done |].
  case_decide; [| done].
  destruct (kind op); cbn [entryAfter]; [eauto | done ..].
Qed.

End RegistryFacts.

(** ** The claims about reference counts *)

Module RegistryCounts.
Import ResourceCache Registry RegistryFacts.

(** C10: for an identity already in the table, [incrementRefcount] changes
    only the [refCount] of its entry, which grows by exactly one: the kind and
    the two flags of the entry stay, every other entry stays, the table has
    as many entries as before (no second entry for the identity), and nothing
    happens outside the table.  The kind passed to the call is ignored. *)
Theorem incrementRefcount_tracked_frame (w : World) (r : Z) (t : ResourceType)
    (ref : ResourceReference) :
  mCache w !! r = Some ref ->
  (exists ref',
      mCache (incrementRefcount r t w) !! r = Some ref'
      /\ refCount ref' = refCount ref + 1
      /\ resourceType ref' = resourceType ref
      /\ recycled ref' = recycled ref
      /\ destroyed ref' = destroyed ref)
  /\ (forall r', r' <> r ->
        mCache (incrementRefcount r t w) !! r' = mCache w !! r')
  /\ size (mCache (incrementRefcount r t w)) = size (mCache w)
  /\ hasInstance (incrementRefcount r t w) = hasInstance w
  /\ effects (incrementRefcount r t w) = effects w.
Proof.
  intros Hr. rewrite (incrementRefcount_tracked _ _ _ _ Hr). cbn.
  repeat split.
  - eexists. rewrite lookup_insert_eq. repeat split; reflexivity.
  - intros r' Hne. by rewrite lookup_insert_ne.
  - rewrite map_size_insert_Some; [done | by eexists].
Qed.

Lemma incrementRefcount_tracked_frame_witness :
  let w := incrementRefcount 7 kBitmap (initial true) in
  mCache w !! 7
  = Some {| refCount := 1; recycled := false; destroyed := false;
            resourceType := kBitmap |}
  /\ size (mCache (incrementRefcount 7 kMatrix w)) = size (mCache w)
  /\ effects (incrementRefcount 7 kMatrix w) = effects w.
Proof.
  cbv zeta. split; [reflexivity |].
  pose proof (incrementRefcount_tracked_frame
                (incrementRefcount 7 kBitmap (initial true)) 7 kMatrix
                {| refCount := 1; recycled := false; destroyed := false;
                   resourceType := kBitmap |} eq_refl) as (_ & _ & Hs & _ & He).
  exact (conj Hs He).
Defined.

(** C9: after any run of public operations from the empty registry, every
    entry of the table has [refCount >= 1]: only an increment puts an entry
    into the table, and the decrement that reaches 0 takes it out.  So on a
    tracked identity [recycle] and the four destructors never take their
    [refCount == 0] branch: they set their flag, leave the entry in the table
    and do nothing else. *)
Theorem tracked_entries_are_referenced (instance : bool) (ops : list Op) :
  let w := run ops (initial instance) in
  (forall r ref, mCache w !! r = Some ref -> 1 <= refCount ref)
  /\ (forall r op,
        creates r op w = true -> target op = r /\ exists t, kind op = Increment t)
  /\ (forall r ref, mCache w !! r = Some ref ->
        recycle r w = flagged (withRecycled true) r ref w
        /\ recycleBitmap r w = flagged (withRecycled true) r ref w
        /\ destructorBitmap r w = flagged (withDestroyed true) r ref w
        /\ destructorMatrix r w = flagged (withDestroyed true) r ref w
        /\ destructorPaint r w = flagged (withDestroyed true) r ref w
        /\ destructorShader r w = flagged (withDestroyed true) r ref w).
Proof.
  cbv zeta.
  pose proof (allReferenced_run ops _ (allReferenced_initial instance)) as Hall.
  split; [exact Hall |].
  split; [intros r op; apply creates_increment |].
  intros r ref Hr. specialize (Hall _ _ Hr).
  unfold destructorBitmap, destructorMatrix, destructorPaint, destructorShader.
  rewrite (recycleBitmap_tracked _ _ _ Hr), (recycle_tracked _ _ _ Hr),
    !(destructorWith_tracked _ _ _ _ Hr).
  rewrite !settle_nonzero by (cbn; lia). done.
Qed.

Lemma tracked_entries_are_referenced_witness :
  let w := run [IncrementRefcountBitmap 7; IncrementRefcount 7 kBitmap;
                DecrementRefcount 7] (initial true) in
  let ref := {| refCount := 1; recycled := false; destroyed := false;
                resourceType := kBitmap |} in
  mCache w !! 7 = Some ref
  /\ 1 <= refCount ref
  /\ destructorBitmap 7 w = flagged (withDestroyed true) 7 ref w.
Proof.
  cbv zeta. split; [reflexivity |].
  pose proof (tracked_entries_are_referenced true
                [IncrementRefcountBitmap 7; IncrementRefcount 7 kBitmap;
                 DecrementRefcount 7]) as (Hcount & _ & Hflag).
  split.
  - exact (Hcount 7 _ eq_refl).
  - exact (proj1 (proj2 (proj2 (Hflag 7 _ eq_refl)))).
Defined.

(** C6, as the code has it: [decrementRefcount] on an identity that is not in
    the table returns at once, silently: it leaves the whole state as it is
    and nothing is added to the trace, so nothing is reported (the overloads
    for bitmaps and shaders leave the table as it is); and in no state
    reached from the empty registry is a [refCount] negative, nor does a
    decrement there write a negative one. *)
Theorem refCount_never_below_zero :
  (forall w r, mCache w !! r = None ->
      decrementRefcount r w = w
      /\ effects (decrementRefcount r w) = effects w
      /\ mCache (decrementRefcountBitmap r w) = mCache w
      /\ mCache (decrementRefcountShader r w) = mCache w)
  /\ (forall instance ops r ref,
        mCache (run ops (initial instance)) !! r = Some ref ->
        0 <= refCount ref
        /\ 0 <= refCount (withRefCount (refCount ref - 1) ref)).
Proof.
  split.
  - intros w r Hr.
    unfold decrementRefcountBitmap, decrementRefcountShader, decrementRefcount.
    cbn. by rewrite Hr.
  - intros instance ops r ref Hr.
    pose proof (allReferenced_run ops _ (allReferenced_initial instance) _ _ Hr).
    cbn. lia.
Qed.

Lemma refCount_never_below_zero_witness :
  let w := run [IncrementRefcount 7 kPaint; DecrementRefcount 7] (initial false) in
  let w' := step (IncrementRefcountShader 9) w in
  mCache w !! 7 = None
  /\ decrementRefcount 7 w = w
  /\ mCache w' !! 9
     = Some {| refCount := 1; recycled := false; destroyed := false;
               resourceType := kShader |}
  /\ 0 <= 1.
Proof.
  cbv zeta. destruct refCount_never_below_zero as [Hnoop Hreach].
  split; [reflexivity |]. split.
  - exact (proj1 (Hnoop (run [IncrementRefcount 7 kPaint; DecrementRefcount 7]
                           (initial false)) 7 eq_refl)).
  - split; [reflexivity |].
    exact (proj1 (Hreach false
                    [IncrementRefcount 7 kPaint; DecrementRefcount 7;
                     IncrementRefcountShader 9] 9
                    {| refCount := 1; recycled := false; destroyed := false;
                       resourceType := kShader |} eq_refl)).
Defined.

(** C6 as the spec words it fails: the decrement of an identity that is not
    in the table is not reported; the call does nothing at all. *)
Lemma decrement_untracked_not_reported :
  mCache (initial true) !! 7 = None
  /\ effects (decrementRefcount 7 (initial true)) = []
  /\ decrementRefcount 7 (initial true) = initial true.
Proof. repeat split; reflexivity. Qed.

End RegistryCounts.

(** ** When an entry leaves the table *)

Module RegistryRemoval.
Import ResourceCache Registry RegistryFacts.

Lemma keep_None ref : keep ref = None <-> refCount ref = 0.
Proof.
  unfold keep. destruct (Z.eqb_spec (refCount ref) 0); split; congruence.
Qed.

Lemma removes_iff r op w :
  removes r op w = true <->
  exists ref,
    mCache w !! r = Some ref /\ target op = r
    /\ (kind op = Decrement /\ refCount ref = 1
        \/ (kind op = RecycleRequest \/ kind op = DestroyRequest)
           /\ refCount ref = 0).
Proof.
  unfold removes. rewrite tracked_step. unfold tracked.
  destruct (mCache w !! r) as [ref|] eqn:Hr; cbn [andb].
  2: { split; [done | intros (ref & ? & _); done]. }
  case_decide as Htarget.
  2: { split; [done | intros (? & _ & ? & _); congruence]. }
  destruct (kind op) eqn:Hkind; cbn [entryAfter].
  - split; [done |]. intros (? & _ & _ & [[? _]|[[?|?] _]]); done.
  - destruct (keep _) eqn:Hkeep at 1.
    + split; [done |]. intros (ref' & [= <-] & _ & [[_ Hone]|[[?|?] _]]); try done.
      assert (keep (withRefCount (refCount ref - 1) ref) = None) as Hnone
        by (apply keep_None; cbn; lia).
      congruence.
    + apply keep_None in Hkeep. cbn in Hkeep. split; [|done]. intros _.
      exists ref. repeat split; [done |]. left. split; [done | lia].
  - destruct (keep _) eqn:Hkeep at 1.
    + split; [done |]. intros (ref' & [= <-] & _ & [[? _]|[_ Hzero]]); try done.
      assert (keep (withRecycled true ref) = None) as Hnone
        by (by apply keep_None).
      congruence.
    + apply keep_None in Hkeep. cbn in Hkeep. split; [|done]. intros _.
      exists ref. repeat split; [done |]. right. split; [by left | done].
  - destruct (keep _) eqn:Hkeep at 1.
    + split; [done |]. intros (ref' & [= <-] & _ & [[? _]|[_ Hzero]]); try done.
      assert (keep (withDestroyed true ref) = None) as Hnone
        by (by apply keep_None).
      congruence.
    + apply keep_None in Hkeep. cbn in Hkeep. split; [|done]. intros _.
      exists ref. repeat split; [done |]. right. split; [by right | done].
Qed.

Lemma removals_bounded r ops :
  forall w,
    (removals r ops w <= creations r ops w + (if tracked r w then 1 else 0))%nat.
Proof.
  induction ops as [|op ops IH]; intros w; cbn [removals creations]; [lia |].
  specialize (IH (step op w)). unfold removes, creates.
  destruct (tracked r w), (tracked r (step op w)); cbn in *; lia.
Qed.

(** C1, as the code has it: a call takes the entry of [r] out of the table
    precisely when it is a decrement of [r] that brings [refCount] from 1 to
    0, whatever the two flags say, or a recycle or destroy of [r] that finds
    [refCount == 0]; with neither flag set the decrement to 0 takes the entry
    out and does nothing else.  An entry leaves the table at most once per
    registration: a run takes the entry of [r] out at most as often as it
    puts one in, plus once if [r] was tracked at the start. *)
Theorem entry_removed_when_count_reaches_zero (r : Z) :
  (forall op w,
      removes r op w = true <->
      exists ref,
        mCache w !! r = Some ref /\ target op = r
        /\ (kind op = Decrement /\ refCount ref = 1
            \/ (kind op = RecycleRequest \/ kind op = DestroyRequest)
               /\ refCount ref = 0))
  /\ (forall w ref,
        mCache w !! r = Some ref -> refCount ref = 1 ->
        recycled ref = false -> destroyed ref = false ->
        decrementRefcount r w = setCache (delete r (mCache w)) w)
  /\ (forall ops w,
        (removals r ops w
         <= creations r ops w + (if tracked r w then 1 else 0))%nat).
Proof.
  split; [intros op w; apply removes_iff |].
  split; [| apply removals_bounded].
  intros w ref Hr Hone Hrec Hdes.
  rewrite (decrementRefcount_tracked _ _ _ Hr), settle_zero by (cbn; lia).
  unfold cleanupEffects, setCache. cbn. rewrite Hrec, Hdes. cbn.
  by rewrite app_nil_r.
Qed.

Lemma entry_removed_when_count_reaches_zero_witness :
  let w := incrementRefcount 7 kMatrix (initial true) in
  mCache w !! 7
  = Some {| refCount := 1; recycled := false; destroyed := false;
            resourceType := kMatrix |}
  /\ removes 7 (DecrementRefcount 7) w = true
  /\ decrementRefcount 7 w = setCache (delete 7 (mCache w)) w.
Proof.
  cbv zeta. split; [reflexivity |].
  destruct (entry_removed_when_count_reaches_zero 7) as (Hiff & Hplain & _).
  split.
  - apply Hiff. eexists. split; [reflexivity |]. split; [reflexivity |].
    left. split; reflexivity.
  - exact (Hplain (incrementRefcount 7 kMatrix (initial true)) _
             eq_refl eq_refl eq_refl eq_refl).
Defined.

(** C1 as the spec words it fails: the decrement that brings the count of an
    entry with neither flag set to 0 takes the entry out of the table, and an
    identity registered again is taken out again. *)
Lemma entry_removed_without_flags :
  let w := incrementRefcount 7 kBitmap (initial true) in
  mCache w !! 7
  = Some {| refCount := 1; recycled := false; destroyed := false;
            resourceType := kBitmap |}
  /\ mCache (decrementRefcount 7 w) !! 7 = None
  /\ removals 7 [IncrementRefcount 7 kBitmap; DecrementRefcount 7;
                 IncrementRefcount 7 kBitmap; DecrementRefcount 7]
       (initial true) = 2%nat.
Proof. cbv zeta. repeat split; vm_compute; reflexivity. Qed.

End RegistryRemoval.

(** ** Recycling and destroying *)

Module RegistryCleanup.
Import ResourceCache Registry RegistryFacts.

Lemma occurrences_app e l1 l2 :
  occurrences e (l1 ++ l2) = (occurrences e l1 + occurrences e l2)%nat.
Proof. apply count_occ_app. Qed.

Lemma occurrences_cons_eq e l : occurrences e (e :: l) = S (occurrences e l).
Proof. by apply count_occ_cons_eq. Qed.

Lemma occurrences_cons_ne e e' l :
  e' <> e -> occurrences e (e' :: l) = occurrences e l.
Proof. apply count_occ_cons_neq. Qed.

Lemma occurrences_nil e : occurrences e [] = 0%nat.
Proof. reflexivity. Qed.

(** Counts the occurrences in a trace that is spelled out. *)
Ltac count_effects :=
  rewrite ?occurrences_app;
  repeat first
    [ rewrite occurrences_cons_eq
    | rewrite occurrences_cons_ne by discriminate
    | rewrite occurrences_nil ];
  try lia.

(** Decrementing an entry that counts [n + 1] references [n + 1] times takes
    it out of the table and cleans up once. *)
Lemma decrement_to_zero r n :
  forall w ref,
    mCache w !! r = Some ref -> refCount ref = Z.of_nat (S n) ->
    run (replicate (S n) (DecrementRefcount r)) w
    = {| mCache := delete r (mCache w); hasInstance := hasInstance w;
         effects := effects w ++ cleanupEffects w r ref |}.
Proof.
  induction n as [|n IH]; intros w ref Hr Hcount.
  - cbn [replicate run step].
    rewrite (decrementRefcount_tracked _ _ _ Hr), settle_zero by (cbn; lia).
    reflexivity.
  - change (replicate (S (S n)) (DecrementRefcount r))
      with (DecrementRefcount r :: replicate (S n) (DecrementRefcount r)).
    cbn [run step].
    rewrite (decrementRefcount_tracked _ _ _ Hr), settle_nonzero by (cbn; lia).
    rewrite (IH _ (withRefCount (refCount ref - 1) ref));
      [| cbn; apply lookup_insert_eq | cbn; lia].
    cbn. by rewrite delete_insert_eq.
Qed.

(** C2, as the code has it: for a bitmap [r] that is not in the table, two
    increments make [refCount == 2]; [destructor] then sets [destroyed],
    tears nothing down and leaves [r] in the table; the first decrement
    leaves [refCount == 1] and tears nothing down; the second takes [r] out
    of the table and tears it down once: [textureCache.remove(r)] is called
    once when the [Caches] singleton exists and not at all when it does not,
    and [r] is deleted once. *)
Theorem destroy_deferred_until_last_decrement (w : World) (r : Z) :
  mCache w !! r = None ->
  let w2 := incrementRefcount r kBitmap (incrementRefcount r kBitmap w) in
  let w3 := destructorBitmap r w2 in
  let w4 := decrementRefcount r w3 in
  let w5 := decrementRefcount r w4 in
  (mCache w2 !! r
   = Some {| refCount := 2; recycled := false; destroyed := false;
             resourceType := kBitmap |}
   /\ effects w2 = effects w)
  /\ (mCache w3 !! r
      = Some {| refCount := 2; recycled := false; destroyed := true;
                resourceType := kBitmap |}
      /\ effects w3 = effects w)
  /\ (mCache w4 !! r
      = Some {| refCount := 1; recycled := false; destroyed := true;
                resourceType := kBitmap |}
      /\ effects w4 = effects w)
  /\ (mCache w5 !! r = None
      /\ mCache w5 = mCache w
      /\ effects w5
         = effects w
           ++ (if hasInstance w then [TextureCacheRemove r; Delete r]
               else [Delete r])
      /\ occurrences (TextureCacheRemove r) (effects w5)
         = (occurrences (TextureCacheRemove r) (effects w)
            + (if hasInstance w then 1 else 0))%nat
      /\ occurrences (Delete r) (effects w5)
         = (occurrences (Delete r) (effects w) + 1)%nat).
Proof.
  intros Hr. cbv zeta.
  rewrite (incrementRefcount_untracked _ _ _ Hr).
  erewrite incrementRefcount_tracked by (cbn; apply lookup_insert_eq).
  unfold destructorBitmap.
  erewrite destructorWith_tracked by (cbn; apply lookup_insert_eq).
  rewrite settle_nonzero by (cbn; lia).
  erewrite (decrementRefcount_tracked (setCache _ _)) by (cbn; apply lookup_insert_eq).
  rewrite settle_nonzero by (cbn; lia).
  erewrite (decrementRefcount_tracked (setCache _ _)) by (cbn; apply lookup_insert_eq).
  rewrite settle_zero by (cbn; lia).
  cbn -[occurrences].
  rewrite !lookup_insert_eq, lookup_delete_eq, !delete_insert_eq.
  rewrite (delete_id _ _ Hr).
  unfold cleanupEffects, teardown, whenInstance. cbn -[occurrences].
  repeat split; destruct (hasInstance w); by count_effects.
Qed.

Lemma destroy_deferred_until_last_decrement_witness :
  let w := initial true in
  let w3 := destructorBitmap 7
              (incrementRefcount 7 kBitmap (incrementRefcount 7 kBitmap w)) in
  let w5 := decrementRefcount 7 (decrementRefcount 7 w3) in
  mCache w !! 7 = None
  /\ effects w3 = []
  /\ effects w5 = [TextureCacheRemove 7; Delete 7].
Proof.
  cbv zeta. split; [reflexivity |].
  pose proof (destroy_deferred_until_last_decrement (initial true) 7 eq_refl)
    as (_ & [_ H3] & _ & (_ & _ & H5 & _)).
  exact (conj H3 H5).
Defined.

(** C2 as the spec words it fails when no [Caches] singleton exists: the
    teardown deletes the bitmap and never calls [textureCache.remove]. *)
Lemma teardown_without_texture_cache :
  let w5 := run [IncrementRefcount 7 kBitmap; IncrementRefcount 7 kBitmap;
                 DestructorBitmap 7; DecrementRefcount 7; DecrementRefcount 7]
              (initial false) in
  mCache w5 !! 7 = None
  /\ effects w5 = [Delete 7]
  /\ occurrences (TextureCacheRemove 7) (effects w5) <> 1%nat.
Proof. cbv zeta. repeat split; vm_compute; congruence. Qed.

(** C3, as the code has it: on an identity that is not in the table,
    [recycle] on a [void *] does nothing at all, while [recycle] on an
    [SkBitmap *] leaves the table alone and itself empties the bitmap with
    [setPixels(NULL, NULL)]; on a tracked identity both set [recycled] and,
    when [refCount == 0], run the cleanup at once, and otherwise do nothing
    else. *)
Theorem recycle_untracked_and_tracked (w : World) (r : Z) :
  (mCache w !! r = None ->
     recycle r w = w
     /\ recycleBitmap r w = emit [SetPixelsNull r] w
     /\ mCache (recycleBitmap r w) = mCache w)
  /\ (forall ref,
        mCache w !! r = Some ref ->
        recycleBitmap r w = recycle r w
        /\ (refCount ref <> 0 ->
              recycle r w = flagged (withRecycled true) r ref w)
        /\ (refCount ref = 0 ->
              recycle r w
              = {| mCache := delete r (mCache w);
                   hasInstance := hasInstance w;
                   effects :=
                     effects w ++ cleanupEffects w r (withRecycled true ref) |})).
Proof.
  split.
  - intros Hr. unfold recycleBitmap, recycle. by rewrite Hr.
  - intros ref Hr. rewrite (recycleBitmap_tracked _ _ _ Hr).
    rewrite (recycle_tracked _ _ _ Hr). repeat split.
    + intros Hz. by rewrite settle_nonzero.
    + intros Hz. by rewrite settle_zero.
Qed.

Lemma recycle_untracked_and_tracked_witness :
  let w := incrementRefcount 7 kBitmap (initial true) in
  mCache w !! 9 = None
  /\ recycle 9 w = w
  /\ mCache w !! 7
     = Some {| refCount := 1; recycled := false; destroyed := false;
               resourceType := kBitmap |}
  /\ recycleBitmap 7 w = recycle 7 w.
Proof.
  cbv zeta. split; [reflexivity |].
  split.
  - exact (proj1 (proj1 (recycle_untracked_and_tracked
                           (incrementRefcount 7 kBitmap (initial true)) 9)
                    eq_refl)).
  - split; [reflexivity |].
    exact (proj1 (proj2 (recycle_untracked_and_tracked
                           (incrementRefcount 7 kBitmap (initial true)) 7)
                    _ eq_refl)).
Defined.

(** C3 as the spec words it fails for the bitmap overload: recycling a bitmap
    that is not in the table is an effect on the bitmap, whose pixels the
    registry itself releases. *)
Lemma recycle_untracked_bitmap_releases_pixels :
  mCache (initial true) !! 7 = None
  /\ effects (recycleBitmap 7 (initial true)) = [SetPixelsNull 7]
  /\ recycleBitmap 7 (initial true) <> initial true.
Proof. split; [reflexivity | split; [reflexivity | discriminate]]. Qed.

(** C4, as the code has it: on an identity that is not in the table every
    destructor deletes the resource at once; before that, and only when the
    [Caches] singleton exists, the bitmap destructor has the texture cache
    drop the bitmap and the shader destructor has the gradient cache drop the
    shader's [SkShader]; the matrix and paint destructors call no cache.  On
    a tracked identity every destructor sets [destroyed] and does nothing
    else, unless [refCount == 0], when it runs the cleanup at once. *)
Theorem destructor_untracked_and_tracked (w : World) (r : Z) :
  (mCache w !! r = None ->
     destructorBitmap r w
     = emit (if hasInstance w then [TextureCacheRemove r; Delete r]
             else [Delete r]) w
     /\ destructorMatrix r w = emit [Delete r] w
     /\ destructorPaint r w = emit [Delete r] w
     /\ destructorShader r w
        = emit (if hasInstance w
                then [GradientCacheRemove (SkShaderOf r); Delete r]
                else [Delete r]) w)
  /\ (forall ref d,
        mCache w !! r = Some ref ->
        d ∈ [destructorBitmap; destructorMatrix; destructorPaint;
             destructorShader] ->
        (refCount ref <> 0 -> d r w = flagged (withDestroyed true) r ref w)
        /\ (refCount ref = 0 ->
              d r w
              = {| mCache := delete r (mCache w);
                   hasInstance := hasInstance w;
                   effects :=
                     effects w ++ cleanupEffects w r (withDestroyed true ref) |})).
Proof.
  split.
  - intros Hr.
    unfold destructorBitmap, destructorMatrix, destructorPaint, destructorShader.
    rewrite !(destructorWith_untracked _ _ _ Hr). unfold whenInstance.
    by destruct (hasInstance w).
  - intros ref d Hr Hd.
    assert (d r w = settle r (withDestroyed true ref) w) as ->.
    { repeat (apply elem_of_cons in Hd as [->|Hd]);
        [unfold destructorBitmap, destructorMatrix, destructorPaint,
           destructorShader; by apply destructorWith_tracked .. |].
      by apply elem_of_nil in Hd. }
    split; intros Hz; [by rewrite settle_nonzero | by rewrite settle_zero].
Qed.

Lemma destructor_untracked_and_tracked_witness :
  let w := incrementRefcount 7 kShader (initial true) in
  mCache w !! 9 = None
  /\ destructorShader 9 w
     = emit [GradientCacheRemove (SkShaderOf 9); Delete 9] w
  /\ mCache w !! 7
     = Some {| refCount := 1; recycled := false; destroyed := false;
               resourceType := kShader |}
  /\ destructorShader 7 w
     = flagged (withDestroyed true) 7
         {| refCount := 1; recycled := false; destroyed := false;
            resourceType := kShader |} w.
Proof.
  cbv zeta. split; [reflexivity |].
  destruct (destructor_untracked_and_tracked
              (incrementRefcount 7 kShader (initial true)) 9) as [H9 _].
  destruct (destructor_untracked_and_tracked
              (incrementRefcount 7 kShader (initial true)) 7) as [_ H7].
  split; [exact (proj2 (proj2 (proj2 (H9 eq_refl)))) |].
  split; [reflexivity |].
  refine (proj1 (H7 _ destructorShader eq_refl _) _); [| discriminate].
  do 3 apply list_elem_of_further. apply list_elem_of_here.
Defined.

(** C4 as the spec words it fails when no [Caches] singleton exists: the
    destructors of an untracked bitmap and of an untracked shader delete the
    resource and tell no cache. *)
Lemma destructor_untracked_without_caches :
  mCache (initial false) !! 7 = None
  /\ effects (destructorBitmap 7 (initial false)) = [Delete 7]
  /\ effects (destructorShader 7 (initial false)) = [Delete 7]
  /\ occurrences (TextureCacheRemove 7)
       (effects (destructorBitmap 7 (initial false))) = 0%nat.
Proof. repeat split; vm_compute; reflexivity. Qed.

Lemma flagged_twice f r ref w :
  f (f ref) = f ref ->
  mCache w !! r = Some ref ->
  flagged f r (f ref) (flagged f r ref w) = flagged f r ref w.
Proof.
  intros Hf _. unfold flagged, setCache. cbn.
  by rewrite Hf, insert_insert_eq.
Qed.

Lemma flags_monotone op w r ref ref' :
  mCache w !! r = Some ref -> mCache (step op w) !! r = Some ref' ->
  (recycled ref = true -> recycled ref' = true)
  /\ (destroyed ref = true -> destroyed ref' = true).
Proof.
  intros Hr. rewrite step_lookup, Hr.
  case_decide; [| by intros [= <-]].
  unfold entryAfter, keep.
  destruct (kind op); cbn;
    repeat match goal with |- context [?a =? ?b] => destruct (a =? b) end;
    intros [= <-]; by cbn.
Qed.

(** C5: while an entry stays in the table its [recycled] and [destroyed]
    flags are never cleared.  For a bitmap in the table with [refCount > 0],
    recycling a second time changes nothing, nor does destroying a second
    time; and after two recycles, the [refCount] decrements that bring the
    count to 0 take the bitmap out of the table and release its pixels
    exactly once. *)
Theorem recycle_twice_releases_pixels_once :
  (forall op w r ref ref',
      mCache w !! r = Some ref -> mCache (step op w) !! r = Some ref' ->
      (recycled ref = true -> recycled ref' = true)
      /\ (destroyed ref = true -> destroyed ref' = true))
  /\ (forall w r ref,
        mCache w !! r = Some ref ->
        resourceType ref = kBitmap ->
        0 < refCount ref ->
        recycle r (recycle r w) = recycle r w
        /\ recycleBitmap r (recycleBitmap r w) = recycleBitmap r w
        /\ destructorBitmap r (destructorBitmap r w) = destructorBitmap r w
        /\ let w' := run (replicate (Z.to_nat (refCount ref))
                            (DecrementRefcount r))
                       (recycleBitmap r (recycleBitmap r w)) in
           mCache w' !! r = None
           /\ effects w'
              = effects w ++ [SetPixelsNull r]
                ++ (if destroyed ref then teardown w r kBitmap else [])
           /\ occurrences (SetPixelsNull r) (effects w')
              = S (occurrences (SetPixelsNull r) (effects w))).
Proof.
  split; [apply flags_monotone |].
  intros w r ref Hr Hkind Hpos.
  assert (exists n, Z.to_nat (refCount ref) = S n
                    /\ refCount ref = Z.of_nat (S n)) as (n & -> & Hcount).
  { exists (Z.to_nat (refCount ref) - 1)%nat. lia. }
  assert (Hrec : recycle r w = flagged (withRecycled true) r ref w).
  { rewrite (recycle_tracked _ _ _ Hr). apply settle_nonzero. cbn. lia. }
  assert (Hrec2 : recycle r (recycle r w) = recycle r w).
  { rewrite Hrec at 1 2.
    erewrite recycle_tracked by (cbn; apply lookup_insert_eq).
    rewrite settle_nonzero by (cbn; lia).
    by apply (flagged_twice (withRecycled true)). }
  assert (Hbit : recycleBitmap r (recycleBitmap r w) = recycleBitmap r w).
  { rewrite !(recycleBitmap_tracked _ _ _ Hr), Hrec.
    erewrite recycleBitmap_tracked by (cbn; apply lookup_insert_eq).
    by rewrite <- Hrec. }
  split; [exact Hrec2 |]. split; [exact Hbit |]. split.
  { unfold destructorBitmap.
    rewrite !(destructorWith_tracked _ _ _ _ Hr), settle_nonzero by (cbn; lia).
    erewrite destructorWith_tracked by (cbn; apply lookup_insert_eq).
    rewrite settle_nonzero by (cbn; lia).
    by apply (flagged_twice (withDestroyed true)). }
  cbv zeta. rewrite Hbit, (recycleBitmap_tracked _ _ _ Hr), Hrec.
  erewrite decrement_to_zero;
    [| cbn; apply lookup_insert_eq | cbn; exact Hcount].
  unfold cleanupEffects. cbn -[occurrences]. rewrite Hkind. cbn -[occurrences].
  split; [apply lookup_delete_eq |]. split.
  - reflexivity.
  - rewrite occurrences_app, occurrences_cons_eq.
    destruct (destroyed ref); [| by count_effects].
    unfold whenInstance. cbn -[occurrences].
    destruct (hasInstance w); by count_effects.
Qed.

Lemma recycle_twice_releases_pixels_once_witness :
  let w := run [IncrementRefcountBitmap 7; IncrementRefcountBitmap 7]
             (initial true) in
  let w' := run [DecrementRefcount 7; DecrementRefcount 7]
              (recycleBitmap 7 (recycleBitmap 7 w)) in
  mCache w !! 7
  = Some {| refCount := 2; recycled := false; destroyed := false;
            resourceType := kBitmap |}
  /\ recycleBitmap 7 (recycleBitmap 7 w) = recycleBitmap 7 w
  /\ occurrences (SetPixelsNull 7) (effects w')
     = S (occurrences (SetPixelsNull 7) (effects w)).
Proof.
  cbv zeta. split; [reflexivity |].
  destruct recycle_twice_releases_pixels_once as [_ Htwice].
  destruct (Htwice (run [IncrementRefcountBitmap 7; IncrementRefcountBitmap 7]
                      (initial true)) 7
              {| refCount := 2; recycled := false; destroyed := false;
                 resourceType := kBitmap |} eq_refl eq_refl eq_refl)
    as (_ & Hbit & _ & Hrun).
  split; [exact Hbit |]. exact (proj2 (proj2 Hrun)).
Defined.

End RegistryCleanup.

(** * Properties of the bounded recency cache *)

Module CacheFacts.
Import BoundedRecencyCache.

Local Open Scope N_scope.

Section Facts.

Context {Key Value : Type} `{EqDecision Key}.
Variable weight : Value -> N.

Abbreviation totalWeight := (totalWeight weight).
Abbreviation accounted := (accounted weight).
Abbreviation within := (within weight).

Lemma totalWeight_app (l1 l2 : list (Key * Value)) :
  totalWeight (l1 ++ l2) = totalWeight l1 + totalWeight l2.
Proof. induction l1 as [|e l1 IH]; cbn; [done | rewrite IH; lia]. Qed.

(** What the eviction loop does to an accounted cache: it takes a prefix of
    the entries, the least recently used ones, hands them to the hook in that
    order, and stops as soon as the rest fits. *)
Lemma evict_accounted (extra max : N) (l : list (Key * Value)) :
  forall hook,
  exists evicted kept,
    l = evicted ++ kept
    /\ evict weight extra max l (totalWeight l) hook
       = (kept, totalWeight kept, hook ++ evicted)
    /\ (extra <= max -> totalWeight kept + extra <= max)
    /\ (forall a b, evicted = a ++ b -> b <> [] ->
          max < totalWeight (b ++ kept) + extra).
Proof.
  induction l as [|e l IH]; intros hook.
  - exists [], []. cbn. repeat split.
    + destruct (0 + extra <=? max); by rewrite app_nil_r.
    + lia.
    + intros a b Hab. symmetry in Hab. by apply app_eq_nil in Hab as [_ ->].
  - cbn [evict totalWeight].
    destruct (N.leb_spec (weight (snd e) + totalWeight l + extra) max) as [Hfit|Hover].
    + exists [], (e :: l). cbn. rewrite app_nil_r. repeat split; [lia |].
      intros a b Hab. symmetry in Hab. by apply app_eq_nil in Hab as [_ ->].
    + replace (weight (snd e) + totalWeight l - weight (snd e))
        with (totalWeight l) by lia.
      destruct (IH (hook ++ [e])) as (evicted & kept & -> & Hrun & Hfits & Hmin).
      exists (e :: evicted), kept. rewrite Hrun, <- app_assoc. cbn.
      repeat split; [done |].
      intros [|e' a] b Hab Hb; cbn in Hab.
      * subst b. cbn. lia.
      * injection Hab as -> ->. by apply (Hmin a b).
Qed.

Lemma withdraw_weight (key : Key) (l : list (Key * Value)) v rest :
  withdraw key l = Some (v, rest) ->
  totalWeight l = weight v + totalWeight rest.
Proof.
  revert v rest. induction l as [|e l IH]; intros v rest; cbn; [done |].
  destruct (withdraw key l) as [[v' rest']|].
  - intros [= <- <-]. cbn. rewrite (IH _ _ eq_refl). lia.
  - case_decide; [intros [= <- <-]; done | done].
Qed.

Lemma within_create max : within (create (Key := Key) (Value := Value) max).
Proof. split; [reflexivity | cbn; lia]. Qed.

Lemma within_evictFor extra (c : Cache Key Value) :
  accounted c -> extra <= maxWeight c ->
  accounted (evictFor weight extra c)
  /\ currentWeight (evictFor weight extra c) + extra <= maxWeight c
  /\ maxWeight (evictFor weight extra c) = maxWeight c.
Proof.
  unfold BoundedRecencyCache.accounted, evictFor. intros -> Hextra.
  destruct (evict_accounted extra (maxWeight c) (entries c) (hooked c))
    as (evicted & kept & _ & -> & Hfits & _).
  cbn. auto.
Qed.

Lemma within_put key value (c : Cache Key Value) :
  within c -> within (snd (put weight key value c)).
Proof.
  intros [Hacc Hmax]. unfold put.
  destruct (N.ltb_spec (maxWeight c) (weight value)) as [Hbig|Hok]; [done |].
  destruct (within_evictFor (weight value) c Hacc Hok) as (Hacc' & Hfits & Hsame).
  unfold BoundedRecencyCache.within, BoundedRecencyCache.accounted in *. cbn.
  rewrite totalWeight_app, Hacc'. cbn. lia.
Qed.

Lemma within_get key (c : Cache Key Value) :
  within c -> within (snd (get weight key c)).
Proof.
  intros [Hacc Hmax]. unfold get.
  destruct (withdraw key (entries c)) as [[v rest]|] eqn:Hw; [| done].
  apply withdraw_weight in Hw.
  unfold BoundedRecencyCache.within, BoundedRecencyCache.accounted in *. cbn. lia.
Qed.

Lemma within_clear (c : Cache Key Value) : within (clear c).
Proof. split; [reflexivity | cbn; lia]. Qed.

Lemma within_setMaxWeight n (c : Cache Key Value) :
  within c -> within (setMaxWeight weight n c).
Proof.
  intros [Hacc _]. unfold setMaxWeight.
  match goal with |- within (evictFor _ _ ?c0) => set (c1 := c0) end.
  destruct (within_evictFor 0 c1 Hacc) as (Hacc' & Hfits & Hsame);
    [cbn; lia |].
  split; [exact Hacc' | lia].
Qed.

Lemma within_step op (c : Cache Key Value) :
  within c -> within (step weight op c).
Proof.
  destruct op; cbn [step]; unfold remove;
    auto using within_put, within_get, within_clear, within_setMaxWeight.
Qed.

Lemma within_run ops :
  forall c : Cache Key Value, within c -> within (run weight ops c).
Proof.
  induction ops as [|op ops IH]; intros c Hc; cbn [run];
    auto using within_step.
Qed.

(** C7: on a cache whose weight is accounted for, [put] of a value that alone
    weighs more than [maxWeight] returns false and leaves the cache as it is;
    otherwise it returns true, having evicted the least recently used entries
    (a prefix of the recency order, each handed to the removal hook, none of
    them evicted while the value already fitted) until
    [currentWeight + weight(value) <= maxWeight], and having inserted the
    new entry as the most recently used one. *)
Theorem put_rejects_or_evicts_until_fits (c : Cache Key Value) (key : Key)
    (value : Value) :
  (maxWeight c < weight value -> put weight key value c = (false, c))
  /\ (accounted c -> weight value <= maxWeight c ->
        exists evicted kept,
          entries c = evicted ++ kept
          /\ put weight key value c
             = (true,
                {| entries := kept ++ [(key, value)];
                   currentWeight := totalWeight kept + weight value;
                   maxWeight := maxWeight c;
                   hooked := hooked c ++ evicted |})
          /\ totalWeight kept + weight value <= maxWeight c
          /\ (forall a b, evicted = a ++ b -> b <> [] ->
                maxWeight c < totalWeight (b ++ kept) + weight value)).
Proof.
  unfold put. split.
  - intros Hbig. by apply N.ltb_lt in Hbig as ->.
  - intros Hacc Hok. apply N.ltb_ge in Hok as Hnot. rewrite Hnot.
    unfold evictFor. rewrite Hacc.
    destruct (evict_accounted (weight value) (maxWeight c) (entries c) (hooked c))
      as (evicted & kept & Hsplit & -> & Hfits & Hmin).
    exists evicted, kept. cbn. auto.
Qed.

(** C8: after any run of [put], [get], [remove], [clear] and [setMaxWeight]
    on a cache created empty, [currentWeight] is the sum of the weights of
    the entries in the cache and is at most [maxWeight]. *)
Theorem weight_accounted_and_bounded (max : N) (ops : list (Op Key Value)) :
  let c := run weight ops (create max) in
  currentWeight c = totalWeight (entries c)
  /\ currentWeight c <= maxWeight c.
Proof. apply within_run, within_create. Qed.

End Facts.

End CacheFacts.

(** * The layer pool *)

Module LayerCacheFacts.
Import BoundedRecencyCache LayerCache.

Local Open Scope N_scope.

Lemma put_rejects_or_evicts_until_fits_witness :
  let layerA := {| handle := 1; byteSize := 16 |} in
  let layerB := {| handle := 2; byteSize := 16 |} in
  let layerC := {| handle := 3; byteSize := 17 |} in
  let c := snd (put (mkLayerSize 4 4) layerA (create 16)) in
  accounted byteSize c
  /\ byteSize layerB <= maxWeight c
  /\ maxWeight c < byteSize layerC
  /\ put (mkLayerSize 8 8) layerC c = (false, c)
  /\ exists evicted kept,
       entries c = evicted ++ kept
       /\ put (mkLayerSize 8 8) layerB c
          = (true,
             {| entries := kept ++ [(mkLayerSize 8 8, layerB)];
                currentWeight := totalWeight byteSize kept + 16;
                maxWeight := 16;
                hooked := evicted |}).
Proof.
  cbv zeta.
  split; [reflexivity |]. split; [discriminate |]. split; [reflexivity |].
  split.
  - exact (proj1 (CacheFacts.put_rejects_or_evicts_until_fits byteSize
                    (snd (put (mkLayerSize 4 4)
                            {| handle := 1; byteSize := 16 |} (create 16)))
                    (mkLayerSize 8 8) {| handle := 3; byteSize := 17 |})
             eq_refl).
  - destruct (proj2 (CacheFacts.put_rejects_or_evicts_until_fits byteSize
                       (snd (put (mkLayerSize 4 4)
                               {| handle := 1; byteSize := 16 |} (create 16)))
                       (mkLayerSize 8 8) {| handle := 2; byteSize := 16 |})
                eq_refl ltac:(discriminate))
      as (evicted & kept & Hsplit & Hput & _).
    exists evicted, kept. exact (conj Hsplit Hput).
Defined.

(** The eviction example of the spec: with a budget of 100 bytes, releasing a
    layer of 60 bytes and then one of 50 evicts the first, whose hook fires
    once, and leaves 50 bytes in the pool. *)
Example release_60_then_50 :
  let c := snd (put (mkLayerSize 5 3) {| handle := 2; byteSize := 50 |}
                  (snd (put (mkLayerSize 5 3) {| handle := 1; byteSize := 60 |}
                          (create 100)))) in
  getSize c = 50
  /\ hooked c = [(mkLayerSize 5 3, {| handle := 1; byteSize := 60 |})].
Proof. split; reflexivity. Qed.

End LayerCacheFacts.

(** * Further properties of the registry *)

Module RegistryRuns.
Import ResourceCache Registry RegistryTrace RegistryFacts RegistryCleanup.

(** ** What a call adds to the trace *)

Lemma effects_settle r ref w :
  effects (settle r ref w) = effects w ++ settleEffects w r ref.
Proof.
  unfold settleEffects. destruct (Z.eqb_spec (refCount ref) 0) as [Hz|Hz].
  - by rewrite settle_zero.
  - rewrite settle_nonzero by done. cbn. by rewrite app_nil_r.
Qed.

Lemma effects_incrementRefcount r t w :
  effects (incrementRefcount r t w) = effects w.
Proof.
  unfold incrementRefcount.
  destruct (mCache w !! r); [destruct (bool_decide _) |]; reflexivity.
Qed.

Lemma effects_decrementRefcount r w :
  effects (decrementRefcount r w)
  = effects w
    ++ match mCache w !! r with
       | Some ref => settleEffects w r (withRefCount (refCount ref - 1) ref)
       | None => []
       end.
Proof.
  destruct (mCache w !! r) as [ref|] eqn:Hr.
  - by rewrite (decrementRefcount_tracked _ _ _ Hr), effects_settle.
  - unfold decrementRefcount. by rewrite Hr, app_nil_r.
Qed.

Lemma effects_recycle r w :
  effects (recycle r w)
  = effects w
    ++ match mCache w !! r with
       | Some ref => settleEffects w r (withRecycled true ref)
       | None => []
       end.
Proof.
  destruct (mCache w !! r) as [ref|] eqn:Hr.
  - by rewrite (recycle_tracked _ _ _ Hr), effects_settle.
  - unfold recycle. by rewrite Hr, app_nil_r.
Qed.

Lemma effects_destructorWith u r w :
  effects (destructorWith u r w)
  = effects w
    ++ match mCache w !! r with
       | Some ref => settleEffects w r (withDestroyed true ref)
       | None => u w
       end.
Proof.
  destruct (mCache w !! r) as [ref|] eqn:Hr.
  - by rewrite (destructorWith_tracked _ _ _ _ Hr), effects_settle.
  - by rewrite (destructorWith_untracked _ _ _ Hr).
Qed.

Lemma step_effects op w : effects (step op w) = effects w ++ emitted op w.
Proof.
  destruct op; cbn [step]; unfold emitted; cbn [prelude target kind];
    unfold incrementRefcountBitmap, incrementRefcountMatrix,
      incrementRefcountPaint, incrementRefcountShader,
      decrementRefcountBitmap, decrementRefcountShader,
      destructorBitmap, destructorMatrix, destructorPaint, destructorShader;
    rewrite ?effects_incrementRefcount, ?effects_decrementRefcount,
      ?effects_recycle, ?effects_destructorWith;
    cbn [mCache emit effects untrackedEffects app];
    rewrite <- ?app_assoc; cbn [app];
    try (destruct (mCache w !! resource); rewrite ?app_nil_r; reflexivity).
  unfold recycleBitmap. destruct (mCache w !! resource) as [ref|] eqn:Hr.
  - by rewrite effects_recycle, Hr.
  - reflexivity.
Qed.

(** ** Counting what a run did against what it was asked to do *)

Ltac count_trace :=
  rewrite ?occurrences_app;
  repeat first
    [ rewrite occurrences_cons_eq
    | rewrite occurrences_cons_ne by congruence
    | rewrite occurrences_nil ].

Ltac split_conditions :=
  repeat match goal with
         | |- context [if ?b then _ else _] => destruct b eqn:?
         | |- context [match resourceType ?ref with _ => _ end] =>
             destruct (resourceType ref) eqn:?
         end.

(** The step of the invariants below: one call, seen from the identity [r]. *)
Lemma delete_step r op w :
  (occurrences (Delete r) (emitted op w) + pendingDestroy r (step op w)
   <= pendingDestroy r w + (if isDestroyOf r op then 1 else 0))%nat.
Proof.
  unfold pendingDestroy, isDestroyOf, emitted. rewrite step_lookup.
  destruct op; cbn [kind target prelude untrackedEffects];
    (case_decide as Hr; [subst r; rewrite ?bool_decide_eq_true_2 by done |]);
    rewrite ?bool_decide_eq_false_2 by congruence;
    destruct (mCache w !! _) as [ref|] eqn:Hlook; rewrite ?Hlook;
    unfold entryAfter, keep, settleEffects, cleanupEffects, teardown,
      whenInstance;
    cbn -[occurrences];
    try destruct (mCache w !! r) as [ref'|];
    split_conditions; cbn -[occurrences] in *; count_trace; try lia;
    try congruence.
Qed.

Lemma recycle_step r op w :
  (occurrences (SetPixelsNull r) (emitted op w) + pendingRecycle r (step op w)
   <= pendingRecycle r w + (if isRecycleOf r op then 1 else 0))%nat.
Proof.
  unfold pendingRecycle, isRecycleOf, emitted. rewrite step_lookup.
  destruct op; cbn [kind target prelude untrackedEffects];
    (case_decide as Hr; [subst r; rewrite ?bool_decide_eq_true_2 by done |]);
    rewrite ?bool_decide_eq_false_2 by congruence;
    destruct (mCache w !! _) as [ref|] eqn:Hlook; rewrite ?Hlook;
    unfold entryAfter, keep, settleEffects, cleanupEffects, teardown,
      whenInstance;
    cbn -[occurrences];
    try destruct (mCache w !! r) as [ref'|];
    split_conditions; cbn -[occurrences] in *; count_trace; try lia;
    try congruence.
Qed.

Lemma cache_step r op w :
  (occurrences (TextureCacheRemove r) (emitted op w)
   + occurrences (GradientCacheRemove (SkShaderOf r)) (emitted op w)
   <= occurrences (Delete r) (emitted op w))%nat.
Proof.
  unfold emitted.
  destruct op; cbn [kind target prelude untrackedEffects];
    destruct (mCache w !! _) as [ref|];
    unfold settleEffects, cleanupEffects, teardown, whenInstance;
    cbn -[occurrences];
    split_conditions; cbn -[occurrences] in *;
    try (destruct (decide (resource = r)) as [->|]);
    count_trace; lia.
Qed.

Lemma cache_step_without_instance r o op w :
  hasInstance w = false ->
  occurrences (TextureCacheRemove r) (emitted op w) = 0%nat
  /\ occurrences (GradientCacheRemove o) (emitted op w) = 0%nat.
Proof.
  intros Hnone. unfold emitted.
  destruct op; cbn [kind target prelude untrackedEffects];
    destruct (mCache w !! _) as [ref|];
    unfold settleEffects, cleanupEffects, teardown, whenInstance;
    rewrite ?Hnone; cbn -[occurrences];
    split_conditions; cbn -[occurrences] in *;
    split; count_trace; reflexivity.
Qed.

Lemma run_hasInstance ops : forall w, hasInstance (run ops w) = hasInstance w.
Proof.
  induction ops as [|op ops IH]; intros w; cbn [run]; [done |].
  by rewrite IH, step_hasInstance.
Qed.

Lemma destroyCalls_cons r op ops :
  destroyCalls r (op :: ops)
  = ((if isDestroyOf r op then 1 else 0) + destroyCalls r ops)%nat.
Proof. unfold destroyCalls. cbn. by destruct (isDestroyOf r op). Qed.

Lemma recycleCalls_cons r op ops :
  recycleCalls r (op :: ops)
  = ((if isRecycleOf r op then 1 else 0) + recycleCalls r ops)%nat.
Proof. unfold recycleCalls. cbn. by destruct (isRecycleOf r op). Qed.

(** X: a resource is deleted at most once per destructor call.  Over any run
    from any state, the number of [delete resource] is at most the number of
    destructor calls on that resource, plus one if its entry already carried
    the [destroyed] flag; from the empty registry it is at most the number of
    destructor calls. *)
Theorem deleted_at_most_once_per_destructor (r : Z) (ops : list Op) :
  (forall w,
      (occurrences (Delete r) (effects (run ops w))
       + pendingDestroy r (run ops w)
       <= occurrences (Delete r) (effects w) + pendingDestroy r w
          + destroyCalls r ops)%nat)
  /\ (forall instance,
        (occurrences (Delete r) (effects (run ops (initial instance)))
         <= destroyCalls r ops)%nat).
Proof.
  assert (Hrun : forall w,
             (occurrences (Delete r) (effects (run ops w))
              + pendingDestroy r (run ops w)
              <= occurrences (Delete r) (effects w) + pendingDestroy r w
                 + destroyCalls r ops)%nat).
  { induction ops as [|op ops IH]; intros w; cbn [run].
    - unfold destroyCalls. cbn. lia.
    - specialize (IH (step op w)). rewrite step_effects, occurrences_app in IH.
      pose proof (delete_step r op w). rewrite destroyCalls_cons. lia. }
  split; [exact Hrun |].
  intros instance. specialize (Hrun (initial instance)).
  assert (pendingDestroy r (initial instance) = 0%nat) as Hnone
    by (unfold pendingDestroy; cbn; by rewrite lookup_empty).
  change (effects (initial instance)) with (@nil Effect) in Hrun.
  rewrite occurrences_nil in Hrun. lia.
Qed.

(** X: the pixels of a bitmap are released at most once per recycle call.
    Over any run from the empty registry, the number of
    [setPixels(NULL, NULL)] on a resource is at most the number of recycle
    calls on it. *)
Theorem pixels_released_at_most_once_per_recycle (r : Z) (ops : list Op) :
  (forall w,
      (occurrences (SetPixelsNull r) (effects (run ops w))
       + pendingRecycle r (run ops w)
       <= occurrences (SetPixelsNull r) (effects w) + pendingRecycle r w
          + recycleCalls r ops)%nat)
  /\ (forall instance,
        (occurrences (SetPixelsNull r) (effects (run ops (initial instance)))
         <= recycleCalls r ops)%nat).
Proof.
  assert (Hrun : forall w,
             (occurrences (SetPixelsNull r) (effects (run ops w))
              + pendingRecycle r (run ops w)
              <= occurrences (SetPixelsNull r) (effects w) + pendingRecycle r w
                 + recycleCalls r ops)%nat).
  { induction ops as [|op ops IH]; intros w; cbn [run].
    - unfold recycleCalls. cbn. lia.
    - specialize (IH (step op w)). rewrite step_effects, occurrences_app in IH.
      pose proof (recycle_step r op w). rewrite recycleCalls_cons. lia. }
  split; [exact Hrun |].
  intros instance. specialize (Hrun (initial instance)).
  assert (pendingRecycle r (initial instance) = 0%nat) as Hnone
    by (unfold pendingRecycle; cbn; by rewrite lookup_empty).
  change (effects (initial instance)) with (@nil Effect) in Hrun.
  rewrite occurrences_nil in Hrun. lia.
Qed.

(** X: the sibling caches are told to drop a derivative only when the
    resource is deleted, and never when no [Caches] singleton exists.  Over
    any run from the empty registry, the calls [textureCache.remove(r)] and
    [gradientCache.remove(r->getSkShader())] together are at most as many as
    the deletions of [r]; without a [Caches] instance there is none. *)
Theorem cache_drops_only_with_delete (ops : list Op) :
  (forall instance r,
      (occurrences (TextureCacheRemove r) (effects (run ops (initial instance)))
       + occurrences (GradientCacheRemove (SkShaderOf r))
           (effects (run ops (initial instance)))
       <= occurrences (Delete r) (effects (run ops (initial instance))))%nat)
  /\ (forall r o,
        occurrences (TextureCacheRemove r) (effects (run ops (initial false)))
        = 0%nat
        /\ occurrences (GradientCacheRemove o)
             (effects (run ops (initial false))) = 0%nat).
Proof.
  split.
  - intros instance r.
    assert (Hrun : forall w,
               (occurrences (TextureCacheRemove r) (effects w)
                + occurrences (GradientCacheRemove (SkShaderOf r)) (effects w)
                <= occurrences (Delete r) (effects w))%nat ->
               (occurrences (TextureCacheRemove r) (effects (run ops w))
                + occurrences (GradientCacheRemove (SkShaderOf r))
                    (effects (run ops w))
                <= occurrences (Delete r) (effects (run ops w)))%nat).
    { induction ops as [|op ops IH]; intros w Hw; cbn [run]; [done |].
      apply IH. rewrite step_effects, !occurrences_app.
      pose proof (cache_step r op w). lia. }
    apply Hrun. change (effects (initial instance)) with (@nil Effect).
    rewrite !occurrences_nil. lia.
  - intros r o.
    assert (Hrun : forall w,
               hasInstance w = false ->
               occurrences (TextureCacheRemove r) (effects w) = 0%nat
               /\ occurrences (GradientCacheRemove o) (effects w) = 0%nat ->
               occurrences (TextureCacheRemove r) (effects (run ops w)) = 0%nat
               /\ occurrences (GradientCacheRemove o) (effects (run ops w))
                  = 0%nat).
    { induction ops as [|op ops IH]; intros w Hnone Hw; cbn [run]; [done |].
      apply IH; [by rewrite step_hasInstance |].
      rewrite step_effects, !occurrences_app.
      destruct (cache_step_without_instance r o op w Hnone) as [-> ->].
      lia. }
    by apply Hrun.
Qed.

(** ** Calls on different resources, and balanced calls on one *)

Lemma emitted_frame a b w :
  target a <> target b -> emitted a (step b w) = emitted a w.
Proof.
  intros Hne. unfold emitted. rewrite step_lookup.
  case_decide; [done |].
  assert (Hu : untrackedEffects a (step b w) = untrackedEffects a w).
  { destruct a; cbn; unfold whenInstance; by rewrite ?step_hasInstance. }
  assert (Hs : forall r ref, settleEffects (step b w) r ref = settleEffects w r ref).
  { intros r ref. unfold settleEffects, cleanupEffects, teardown, whenInstance.
    by rewrite step_hasInstance. }
  rewrite Hu. destruct (mCache w !! target a); [| done].
  destruct (kind a); by rewrite ?Hs.
Qed.

(** X: a call touches no entry but that of the resource it is made on, does
    not change whether the [Caches] singleton exists, and only adds to what
    has been done to the resources. *)
Theorem call_touches_only_its_resource (op : Op) (w : World) (r : Z) :
  r <> target op ->
  mCache (step op w) !! r = mCache w !! r
  /\ hasInstance (step op w) = hasInstance w
  /\ effects (step op w) = effects w ++ emitted op w
  /\ occurrences (Delete r) (emitted op w) = 0%nat
  /\ occurrences (SetPixelsNull r) (emitted op w) = 0%nat.
Proof.
  intros Hne. rewrite step_lookup, step_hasInstance, step_effects.
  case_decide; [done |]. repeat split.
  - pose proof (delete_step r op w) as Hd.
    unfold pendingDestroy, isDestroyOf in Hd. rewrite step_lookup in Hd.
    case_decide; [done |].
    destruct (kind op); rewrite ?bool_decide_eq_false_2 in Hd by congruence; lia.
  - pose proof (recycle_step r op w) as Hd.
    unfold pendingRecycle, isRecycleOf in Hd. rewrite step_lookup in Hd.
    case_decide; [done |].
    destruct (kind op); rewrite ?bool_decide_eq_false_2 in Hd by congruence; lia.
Qed.

Lemma call_touches_only_its_resource_witness :
  let w := run [IncrementRefcountBitmap 7; IncrementRefcountShader 9]
             (initial true) in
  7 <> target (DestructorShader 9)
  /\ mCache (step (DestructorShader 9) w) !! 7 = mCache w !! 7
  /\ occurrences (Delete 7) (emitted (DestructorShader 9) w) = 0%nat.
Proof.
  cbv zeta. split; [discriminate |].
  destruct (call_touches_only_its_resource (DestructorShader 9)
              (run [IncrementRefcountBitmap 7; IncrementRefcountShader 9]
                 (initial true)) 7 ltac:(discriminate))
    as (Hlook & _ & _ & Hdel & _).
  exact (conj Hlook Hdel).
Defined.

(** X: calls on two different resources commute: in either order they leave
    the same table, and the same effects up to their order. *)
Theorem calls_on_different_resources_commute (a b : Op) (w : World) :
  target a <> target b ->
  mCache (step a (step b w)) = mCache (step b (step a w))
  /\ hasInstance (step a (step b w)) = hasInstance (step b (step a w))
  /\ Permutation (effects (step a (step b w))) (effects (step b (step a w))).
Proof.
  intros Hne. split; [| split].
  - apply map_eq. intros r. rewrite !step_lookup.
    repeat case_decide; congruence.
  - by rewrite !step_hasInstance.
  - rewrite !step_effects, emitted_frame, (emitted_frame b a) by congruence.
    rewrite <- !app_assoc. apply Permutation_app_head, Permutation_app_comm.
Qed.

Lemma calls_on_different_resources_commute_witness :
  let w := run [IncrementRefcountBitmap 7; IncrementRefcountShader 9]
             (initial true) in
  target (DecrementRefcountBitmap 7) <> target (DestructorShader 9)
  /\ mCache (step (DecrementRefcountBitmap 7) (step (DestructorShader 9) w))
     = mCache (step (DestructorShader 9) (step (DecrementRefcountBitmap 7) w)).
Proof.
  cbv zeta. split; [discriminate |].
  exact (proj1 (calls_on_different_resources_commute
                  (DecrementRefcountBitmap 7) (DestructorShader 9)
                  (run [IncrementRefcountBitmap 7; IncrementRefcountShader 9]
                     (initial true)) ltac:(discriminate))).
Defined.

Lemma decrement_after_increment r t w :
  (forall ref, mCache w !! r = Some ref -> 1 <= refCount ref) ->
  decrementRefcount r (incrementRefcount r t w) = w.
Proof.
  intros Href. destruct (mCache w !! r) as [ref|] eqn:Hr.
  - rewrite (incrementRefcount_tracked _ _ _ _ Hr).
    erewrite decrementRefcount_tracked by (cbn; apply lookup_insert_eq).
    specialize (Href _ eq_refl).
    rewrite settle_nonzero by (cbn; lia).
    destruct w as [m i es]. unfold setCache. cbn in *.
    rewrite insert_insert_eq. f_equal. apply insert_id.
    rewrite Hr. destruct ref. unfold withRefCount. cbn. do 2 f_equal. lia.
  - rewrite (incrementRefcount_untracked _ _ _ Hr).
    erewrite decrementRefcount_tracked by (cbn; apply lookup_insert_eq).
    rewrite settle_zero by (cbn; lia).
    destruct w as [m i es]. cbn in *.
    rewrite delete_insert_eq, app_nil_r. f_equal. by apply delete_id.
Qed.

Lemma run_app ops1 ops2 w : run (ops1 ++ ops2) w = run ops2 (run ops1 w).
Proof. revert w. induction ops1 as [|op ops1 IH]; intros w; cbn; auto. Qed.

Lemma replicate_snoc {A} n (x : A) : replicate (S n) x = replicate n x ++ [x].
Proof. induction n as [|n IH]; cbn in *; [done | by rewrite <- IH]. Qed.

Lemma increments_referenced r t n :
  forall w,
    (forall ref, mCache w !! r = Some ref -> 1 <= refCount ref) ->
    forall ref,
      mCache (run (replicate n (IncrementRefcount r t)) w) !! r = Some ref ->
      1 <= refCount ref.
Proof.
  induction n as [|n IH]; intros w Hw ref; cbn [replicate run step]; [apply Hw |].
  apply IH. intros ref'. rewrite incrementRefcount_lookup.
  case_decide; [| done].
  destruct (mCache w !! r) as [ref0|] eqn:Hr; cbn; intros [= <-]; cbn.
  - specialize (Hw _ eq_refl). lia.
  - lia.
Qed.

(** X: balanced counting is a round trip.  On a resource that is not in the
    table, or whose entry counts at least one reference, [n] increments
    followed by [n] decrements leave the whole state as it was: the table,
    and no cleanup of the resource. *)
Theorem increments_then_decrements_restore (r : Z) (t : ResourceType) (n : nat)
    (w : World) :
  (forall ref, mCache w !! r = Some ref -> 1 <= refCount ref) ->
  run (replicate n (DecrementRefcount r))
    (run (replicate n (IncrementRefcount r t)) w) = w.
Proof.
  revert w. induction n as [|n IH]; intros w Hw; [done |].
  rewrite (replicate_snoc n (IncrementRefcount r t)), run_app.
  cbn [run replicate step].
  rewrite decrement_after_increment by (by apply increments_referenced).
  by apply IH.
Qed.

Lemma increments_then_decrements_restore_witness :
  let w := run [IncrementRefcountBitmap 7; DestructorBitmap 7] (initial true) in
  mCache w !! 7
  = Some {| refCount := 1; recycled := false; destroyed := true;
            resourceType := kBitmap |}
  /\ run (replicate 3 (DecrementRefcount 7))
       (run (replicate 3 (IncrementRefcount 7 kBitmap)) w) = w.
Proof.
  cbv zeta. split; [reflexivity |].
  apply (increments_then_decrements_restore 7 kBitmap 3).
  intros ref. vm_compute. intros [= <-]. vm_compute. discriminate.
Defined.

(** X: the kind of an entry is the kind of its registration.  Whatever is
    called on a tracked resource, with whatever overload, the entry keeps its
    [resourceType] as long as it stays in the table. *)
Theorem entry_keeps_its_kind (ops : list Op) (w : World) (r : Z)
    (ref : ResourceReference) :
  mCache w !! r = Some ref ->
  staysTracked r ops w = true ->
  exists ref',
    mCache (run ops w) !! r = Some ref'
    /\ resourceType ref' = resourceType ref.
Proof.
  revert w ref. induction ops as [|op ops IH]; intros w ref Hr; cbn [run staysTracked].
  - intros _. by exists ref.
  - intros [Hnow Hlater]%andb_true_iff. unfold tracked in Hnow.
    destruct (mCache (step op w) !! r) as [ref1|] eqn:Hr1; [| done].
    destruct (IH _ _ Hr1 Hlater) as (ref' & Hr' & Hkind).
    exists ref'. split; [done |]. rewrite Hkind.
    revert Hr1. rewrite step_lookup, Hr. case_decide; [| by intros [= <-]].
    unfold entryAfter, keep.
    destruct (kind op); cbn; split_conditions; by intros [= <-].
Qed.

Lemma entry_keeps_its_kind_witness :
  let w := incrementRefcountBitmap 7 (initial true) in
  let ops := [IncrementRefcountMatrix 7; DestructorPaint 7;
              DecrementRefcountShader 7] in
  mCache w !! 7
  = Some {| refCount := 1; recycled := false; destroyed := false;
            resourceType := kBitmap |}
  /\ staysTracked 7 ops w = true
  /\ exists ref',
       mCache (run ops w) !! 7 = Some ref' /\ resourceType ref' = kBitmap.
Proof.
  cbv zeta. split; [reflexivity |]. split; [reflexivity |].
  exact (entry_keeps_its_kind
           [IncrementRefcountMatrix 7; DestructorPaint 7;
            DecrementRefcountShader 7]
           (incrementRefcountBitmap 7 (initial true)) 7
           {| refCount := 1; recycled := false; destroyed := false;
              resourceType := kBitmap |} eq_refl eq_refl).
Defined.

End RegistryRuns.

(** * Properties of the scripts *)

Module ScriptCFacts.
Import ScriptC.

Local Open Scope string_scope.
Local Open Scope Z_scope.
Local Open Scope list_scope.

(** ** [ptrToAllocation] *)

Lemma findAllocation_Some s ptr cts a :
  findAllocation s ptr cts = Some a ->
  getPtr a = ptr
  /\ exists before ct after,
       cts = before ++ ct :: after
       /\ slotAt s ct = Some a
       /\ forall ct' a', ct' ∈ before -> slotAt s ct' = Some a' -> getPtr a' <> ptr.
Proof.
  induction cts as [|ct cts IH]; cbn; [done |].
  destruct (slotAt s ct) as [a0|] eqn:Hslot.
  - destruct (Z.eqb_spec (getPtr a0) ptr) as [Heq|Hne].
    + intros [= <-]. split; [done |]. exists [], ct, cts.
      repeat split; [done |]. intros ct' a' Hin. by apply elem_of_nil in Hin.
    + intros Hfind. destruct (IH Hfind) as (Hptr & before & ct0 & after & -> & Hs & Hb).
      split; [done |]. exists (ct :: before), ct0, after. repeat split; [done |].
      intros ct' a' [->|Hin]%elem_of_cons; [congruence | by apply Hb].
  - intros Hfind. destruct (IH Hfind) as (Hptr & before & ct0 & after & -> & Hs & Hb).
    split; [done |]. exists (ct :: before), ct0, after. repeat split; [done |].
    intros ct' a' [->|Hin]%elem_of_cons; [congruence | by apply Hb].
Qed.

Lemma findAllocation_None s ptr cts :
  findAllocation s ptr cts = None <->
  forall ct a, ct ∈ cts -> slotAt s ct = Some a -> getPtr a <> ptr.
Proof.
  induction cts as [|ct cts IH]; cbn.
  - split; [| done]. intros _ ct a Hin. by apply elem_of_nil in Hin.
  - destruct (slotAt s ct) as [a0|] eqn:Hslot.
    + destruct (Z.eqb_spec (getPtr a0) ptr) as [Heq|Hne].
      * split; [done |]. intros Hall.
        exfalso. apply (Hall ct a0); [apply list_elem_of_here | done | done].
      * rewrite IH. split.
        -- intros Hall ct' a' [->|Hin]%elem_of_cons; [congruence | by apply Hall].
        -- intros Hall ct' a' Hin. apply Hall. by apply list_elem_of_further.
    + rewrite IH. split.
      * intros Hall ct' a' [->|Hin]%elem_of_cons; [congruence | by apply Hall].
      * intros Hall ct' a' Hin. apply Hall. by apply list_elem_of_further.
Qed.

Lemma seq_split_lt before ct after n :
  seq 0 n = before ++ ct :: after ->
  (ct < n)%nat /\ forall ct', ct' ∈ before <-> (ct' < ct)%nat.
Proof.
  intros Hseq.
  assert (Hmid : seq 0 n !! length before = Some ct)
    by (rewrite Hseq; apply list_lookup_middle; done).
  apply lookup_seq in Hmid as [Hct Hlt]. cbn in Hct.
  split; [lia |]. intros ct'. split.
  - intros [i Hi]%list_elem_of_lookup.
    pose proof (lookup_lt_Some _ _ _ Hi) as Hi_lt.
    assert (Hs : seq 0 n !! i = Some ct')
      by (rewrite Hseq; by apply lookup_app_l_Some).
    apply lookup_seq in Hs as [-> _]. lia.
  - intros Hlt'.
    destruct (lookup_lt_is_Some_2 before ct') as [v Hv]; [lia |].
    assert (Hs : seq 0 n !! ct' = Some v)
      by (rewrite Hseq; by apply lookup_app_l_Some).
    apply lookup_seq in Hs as [-> _]. apply list_elem_of_lookup. by exists ct'.
Qed.

(** X: [ptrToAllocation] finds the allocation a pointer belongs to.  It
    answers [NULL] for [NULL]; any allocation it returns sits in the first
    slot, among the exported variables, whose allocation has this pointer;
    and it answers [NULL] for a pointer other than [NULL] only when no slot
    holds an allocation with this pointer. *)
Theorem ptrToAllocation_finds_first_slot (s : Script) (ptr : Z) :
  (ptr = 0 -> ptrToAllocation s ptr = None)
  /\ (forall a,
        ptrToAllocation s ptr = Some a ->
        ptr <> 0 /\ getPtr a = ptr
        /\ exists ct,
             (ct < exportedVariableCount (info s))%nat
             /\ slotAt s ct = Some a
             /\ forall ct' a', (ct' < ct)%nat -> slotAt s ct' = Some a' ->
                               getPtr a' <> ptr)
  /\ (ptr <> 0 ->
      (ptrToAllocation s ptr = None <->
       forall ct a, (ct < exportedVariableCount (info s))%nat ->
                    slotAt s ct = Some a -> getPtr a <> ptr)).
Proof.
  unfold ptrToAllocation. split; [| split].
  - by intros ->.
  - intros a. destruct (Z.eqb_spec ptr 0) as [|Hptr]; [done |].
    intros (Hget & before & ct & after & Hseq & Hslot & Hfirst)%findAllocation_Some.
    destruct (seq_split_lt _ _ _ _ Hseq) as [Hlt Hbefore].
    repeat split; [done | done |]. exists ct. repeat split; [done | done |].
    intros ct' a' Hct'. apply Hfirst. by apply Hbefore.
  - intros Hptr. apply Z.eqb_neq in Hptr as ->.
    rewrite findAllocation_None. split.
    + intros Hall ct a Hct. apply Hall. rewrite list_elem_of_In, in_seq. lia.
    + intros Hall ct a Hin. apply Hall.
      rewrite list_elem_of_In, in_seq in Hin. lia.
Qed.

Lemma ptrToAllocation_finds_first_slot_witness :
  let a1 := {| allocation := 100; getPtr := 4096; getType := 7 |} in
  let a2 := {| allocation := 200; getPtr := 8192; getType := 7 |} in
  let s := {| info := {| root := 1; isThreadable := true;
                         exportedVariableCount := 3;
                         exportedFunctionCount := 0; exportedPragmas := [] |};
              mEnviroment := mkEnviroment 0 0 0 0 0;
              mSlots := [Some a1; None; Some a2];
              mTypes := [0; 0; 0] |} in
  ptrToAllocation s 8192 = Some a2
  /\ 8192 <> 0 /\ getPtr a2 = 8192
  /\ ptrToAllocation s 0 = None.
Proof.
  cbv zeta. split; [reflexivity |].
  match goal with
  | |- _ /\ _ /\ ptrToAllocation ?s _ = _ =>
      destruct (ptrToAllocation_finds_first_slot s 8192) as (_ & Hsome & _);
      destruct (ptrToAllocation_finds_first_slot s 0) as (Hnull & _)
  end.
  destruct (Hsome _ eq_refl) as (Hne & Hptr & _).
  split; [exact Hne |]. split; [exact Hptr |]. exact (Hnull eq_refl).
Defined.

(** ** [setupScript] *)

Lemma flat_map_agree {A B} (f g : A -> list B) (l : list A) :
  (forall a, In a l -> f a = g a) -> flat_map f l = flat_map g l.
Proof.
  induction l as [|a l IH]; intros Hall; cbn; [done |].
  rewrite (Hall a) by (by left). f_equal. apply IH. intros a' Ha'.
  apply Hall. by right.
Qed.

Lemma call_nil rsc : call [] rsc = rsc.
Proof. destruct rsc. unfold call. cbn. by rewrite app_nil_r. Qed.

Lemma call_call c1 c2 rsc : call c2 (call c1 rsc) = call (c1 ++ c2) rsc.
Proof. unfold call. cbn. by rewrite app_assoc. Qed.

Lemma typeAt_insert s ct v j :
  (ct < length (mTypes s))%nat ->
  typeAt (withTypes (<[ct := v]> (mTypes s)) s) j
  = if decide (j = ct) then v else typeAt s j.
Proof.
  intros Hlt. unfold typeAt, withTypes. cbn. case_decide as Hj.
  - subst j. by rewrite list_lookup_insert_eq.
  - by rewrite list_lookup_insert_ne.
Qed.

Lemma withTypes_same s : withTypes (mTypes s) s = s.
Proof. by destruct s. Qed.

Lemma typeAt_lookup s ct :
  (ct < length (mTypes s))%nat -> mTypes s !! ct = Some (typeAt s ct).
Proof.
  intros Hlt. unfold typeAt.
  destruct (lookup_lt_is_Some_2 (mTypes s) ct Hlt) as [v ->]. done.
Qed.

(** One turn of the loop writes the resolved type and binds the variable. *)
Lemma setupVariable_spec s rsc ct :
  (ct < length (mTypes s))%nat ->
  setupVariable (s, rsc) ct
  = (withTypes (<[ct := resolvedType s ct]> (mTypes s)) s,
     call (bindCall s ct) rsc).
Proof.
  intros Hlt. unfold setupVariable, bindCall, boundPtr, resolvedType.
  destruct (slotAt s ct) as [a|] eqn:Hslot.
  - destruct (Z.eqb_spec (typeAt s ct) 0) as [Hz|Hnz].
    + rewrite typeAt_insert by done. rewrite decide_True by done.
      change (slotAt (withTypes _ s) ct) with (slotAt s ct). rewrite Hslot.
      destruct (getType a =? 0); [by rewrite call_nil | done].
    + rewrite Hslot. apply Z.eqb_neq in Hnz as Hnz'. rewrite Hnz'.
      rewrite list_insert_id by (by apply typeAt_lookup).
      by rewrite withTypes_same.
  - destruct (Z.eqb_spec (typeAt s ct) 0) as [Hz|Hnz].
    + rewrite Z.eqb_refl, call_nil.
      rewrite list_insert_id by (rewrite <- Hz; by apply typeAt_lookup).
      by rewrite withTypes_same.
    + rewrite Hslot. apply Z.eqb_neq in Hnz as Hnz'. rewrite Hnz'.
      rewrite list_insert_id by (by apply typeAt_lookup).
      by rewrite withTypes_same.
Qed.

Lemma setupVariables_spec cts :
  forall s rsc,
    NoDup cts -> (forall ct, ct ∈ cts -> (ct < length (mTypes s))%nat) ->
    exists types,
      fold_left setupVariable cts (s, rsc)
      = (withTypes types s, call (flat_map (bindCall s) cts) rsc)
      /\ length types = length (mTypes s)
      /\ forall j,
           typeAt (withTypes types s) j
           = if bool_decide (j ∈ cts) then resolvedType s j else typeAt s j.
Proof.
  induction cts as [|ct cts IH]; intros s rsc Hnodup Hlt.
  - exists (mTypes s). cbn. rewrite withTypes_same, call_nil.
    split; [done |]. split; [done |].
    intros j. rewrite bool_decide_eq_false_2; [done |]. apply not_elem_of_nil.
  - apply NoDup_cons in Hnodup as [Hnotin Hnodup].
    cbn [fold_left flat_map].
    rewrite setupVariable_spec by (apply Hlt, list_elem_of_here).
    set (s1 := withTypes (<[ct := resolvedType s ct]> (mTypes s)) s).
    assert (Hlen1 : length (mTypes s1) = length (mTypes s))
      by apply length_insert.
    assert (Htype1 : forall j, typeAt s1 j
                               = if decide (j = ct) then resolvedType s ct
                                 else typeAt s j).
    { intros j. apply typeAt_insert, Hlt, list_elem_of_here. }
    assert (Hres1 : forall j, j <> ct -> resolvedType s1 j = resolvedType s j).
    { intros j Hj. unfold resolvedType. rewrite Htype1, decide_False by done.
      reflexivity. }
    destruct (IH s1 (call (bindCall s ct) rsc) Hnodup) as (types & Hfold & Hlen & Htypes).
    { intros j Hj. rewrite Hlen1. by apply Hlt, list_elem_of_further. }
    exists types. rewrite Hfold. split; [| split].
    + rewrite call_call. f_equal. f_equal. f_equal.
      apply flat_map_agree. intros j Hj%list_elem_of_In.
      unfold bindCall. rewrite Hres1 by (intros ->; done). reflexivity.
    + by rewrite Hlen, Hlen1.
    + intros j. specialize (Htypes j).
      change (typeAt (withTypes types s1) j) with (typeAt (withTypes types s) j)
        in Htypes.
      rewrite Htypes. destruct (decide (j = ct)) as [->|Hj].
      * rewrite bool_decide_eq_false_2 by done.
        rewrite Htype1, decide_True by done.
        rewrite bool_decide_eq_true_2; [done | apply list_elem_of_here].
      * rewrite Htype1, decide_False by done. rewrite Hres1 by done.
        destruct (bool_decide (j ∈ cts)) eqn:Hin.
        -- apply bool_decide_eq_true in Hin.
           rewrite bool_decide_eq_true_2; [done | by apply list_elem_of_further].
        -- apply bool_decide_eq_false in Hin.
           rewrite bool_decide_eq_false_2; [done |].
           intros [->|Hin']%elem_of_cons; done.
Qed.

Lemma setupScript_closed now s rsc :
  length (mTypes s) = exportedVariableCount (info s) ->
  exists types,
    setupScript now s rsc
    = (withTypes types (withEnviroment (withStartTime now (mEnviroment s)) s),
       call (flat_map (bindCall s) (seq 0 (exportedVariableCount (info s)))) rsc)
    /\ length types = length (mTypes s)
    /\ forall ct,
         default 0 (types !! ct)
         = if bool_decide (ct < exportedVariableCount (info s))%nat
           then resolvedType s ct else typeAt s ct.
Proof.
  intros Hlen. unfold setupScript.
  set (s0 := withEnviroment (withStartTime now (mEnviroment s)) s).
  destruct (setupVariables_spec (seq 0 (exportedVariableCount (info s0))) s0 rsc)
    as (types & Hfold & Hlen' & Htypes).
  { apply NoDup_ListNoDup, seq_NoDup. }
  { intros ct Hct%list_elem_of_In%in_seq. subst s0. cbn in *. lia. }
  exists types. rewrite Hfold. repeat split; [done |].
  intros ct. specialize (Htypes ct). unfold typeAt at 1 in Htypes. cbn in Htypes.
  rewrite Htypes. cbn.
  destruct (decide (ct < exportedVariableCount (info s))%nat) as [Hlt|Hge].
  - rewrite !bool_decide_eq_true_2; [done | done |].
    apply list_elem_of_In, in_seq. lia.
  - rewrite !bool_decide_eq_false_2; [done | done |].
    intros Hin%list_elem_of_In%in_seq. lia.
Qed.

(** X: what [setupScript] leaves.  On a script whose type array has one
    entry per exported variable, it stamps the start time, keeps the slots,
    gives every variable without a type the type of the allocation in its
    slot, never replaces a type a variable already has, and binds, in the
    order of the variables, exactly the variables that now have a type: to
    the pointer of their allocation, or to [NULL] without one. *)
Theorem setupScript_types_and_bindings (now : Z) (s : Script) (rsc : Context) :
  length (mTypes s) = exportedVariableCount (info s) ->
  let s' := fst (setupScript now s rsc) in
  let rsc' := snd (setupScript now s rsc) in
  info s' = info s
  /\ mSlots s' = mSlots s
  /\ mEnviroment s' = withStartTime now (mEnviroment s)
  /\ length (mTypes s') = length (mTypes s)
  /\ (forall ct, (ct < exportedVariableCount (info s))%nat ->
                 typeAt s' ct = resolvedType s ct)
  /\ (forall ct, typeAt s ct <> 0 -> typeAt s' ct = typeAt s ct)
  /\ calls rsc'
     = calls rsc
       ++ flat_map (fun ct => if typeAt s' ct =? 0 then []
                              else [HalSetGlobalBind ct (boundPtr s ct)])
            (seq 0 (exportedVariableCount (info s))).
Proof.
  intros Hlen. cbv zeta.
  destruct (setupScript_closed now s rsc Hlen) as (types & -> & Hlen' & Htypes).
  cbn [fst snd].
  set (s' := withTypes types _).
  assert (Hty : forall ct,
             typeAt s' ct
             = if bool_decide (ct < exportedVariableCount (info s))%nat
               then resolvedType s ct else typeAt s ct)
    by (intros ct; apply Htypes).
  split; [done |]. split; [done |]. split; [done |]. split; [done |].
  split; [| split].
  - intros ct Hct. by rewrite Hty, bool_decide_eq_true_2.
  - intros ct Hnz. rewrite Hty. case_bool_decide; [| done].
    unfold resolvedType. by apply Z.eqb_neq in Hnz as ->.
  - cbn [calls call]. f_equal. apply flat_map_agree. intros ct Hct%in_seq.
    unfold bindCall. rewrite Hty, bool_decide_eq_true_2 by lia. reflexivity.
Qed.

Lemma setupScript_types_and_bindings_witness :
  let a := {| allocation := 100; getPtr := 4096; getType := 7 |} in
  let s := {| info := {| root := 1; isThreadable := true;
                         exportedVariableCount := 3;
                         exportedFunctionCount := 0; exportedPragmas := [] |};
              mEnviroment := mkEnviroment 0 0 0 0 0;
              mSlots := [Some a; None; None];
              mTypes := [0; 9; 0] |} in
  let rsc := mkContext 1 2 3 4 [] in
  length (mTypes s) = exportedVariableCount (info s)
  /\ mTypes (fst (setupScript 5 s rsc)) = [7; 9; 0]
  /\ calls (snd (setupScript 5 s rsc))
     = [HalSetGlobalBind 0 4096; HalSetGlobalBind 1 0].
Proof.
  cbv zeta. split; [reflexivity |]. split; [reflexivity |].
  match goal with
  | |- calls (snd (setupScript ?now ?s ?rsc)) = _ =>
      destruct (setupScript_types_and_bindings now s rsc eq_refl)
        as (_ & _ & _ & _ & _ & _ & Hcalls)
  end.
  rewrite Hcalls. reflexivity.
Defined.

Lemma types_eq (l1 l2 : list Z) :
  length l1 = length l2 ->
  (forall ct, default 0 (l1 !! ct) = default 0 (l2 !! ct)) -> l1 = l2.
Proof.
  intros Hlen Hall. apply list_eq. intros ct. specialize (Hall ct).
  destruct (l1 !! ct) as [v1|] eqn:H1, (l2 !! ct) as [v2|] eqn:H2; cbn in Hall.
  - by subst.
  - apply lookup_lt_Some in H1. apply lookup_ge_None in H2. lia.
  - apply lookup_ge_None in H1. apply lookup_lt_Some in H2. lia.
  - done.
Qed.

(** X: [setupScript] is idempotent but for the clock.  Run again, at any
    later time and with the same slots, it leaves the types as the first run
    left them and makes the same bindings again. *)
Theorem setupScript_again (now now' : Z) (s : Script) (rsc rsc' : Context) :
  length (mTypes s) = exportedVariableCount (info s) ->
  let s1 := fst (setupScript now s rsc) in
  let s2 := fst (setupScript now' s1 rsc') in
  mTypes s2 = mTypes s1
  /\ mSlots s2 = mSlots s
  /\ exists binds,
       calls (snd (setupScript now s rsc)) = calls rsc ++ binds
       /\ calls (snd (setupScript now' s1 rsc')) = calls rsc' ++ binds.
Proof.
  intros Hlen. cbv zeta.
  destruct (setupScript_closed now s rsc Hlen) as (types & E1 & Hlen1 & Htypes1).
  rewrite E1. cbn [fst snd].
  set (s1 := withTypes types _).
  assert (Hlen_s1 : length (mTypes s1) = exportedVariableCount (info s1))
    by (cbn; lia).
  destruct (setupScript_closed now' s1 rsc' Hlen_s1) as (types2 & E2 & Hlen2 & Htypes2).
  rewrite E2. cbn [fst snd].
  assert (Hres : forall ct, (ct < exportedVariableCount (info s))%nat ->
                            resolvedType s1 ct = resolvedType s ct).
  { intros ct Hct. unfold resolvedType at 1. unfold typeAt. cbn.
    rewrite Htypes1, bool_decide_eq_true_2 by done.
    change (slotAt s1 ct) with (slotAt s ct).
    unfold resolvedType.
    destruct (Z.eqb_spec (typeAt s ct) 0) as [Hz|Hnz].
    - destruct (slotAt s ct) as [a|]; [| done].
      by destruct (Z.eqb_spec (getType a) 0).
    - by apply Z.eqb_neq in Hnz as ->. }
  split; [| split; [done |]].
  - cbn. apply types_eq; [cbn in Hlen2; lia |].
    intros ct. rewrite Htypes2. cbn.
    case_bool_decide as Hct.
    + rewrite Hres by done. by rewrite Htypes1, bool_decide_eq_true_2.
    + reflexivity.
  - eexists. split; [reflexivity |]. cbn. f_equal.
    apply flat_map_agree. intros ct Hct%in_seq.
    unfold bindCall. rewrite Hres by lia. reflexivity.
Qed.

Lemma setupScript_again_witness :
  let a := {| allocation := 100; getPtr := 4096; getType := 7 |} in
  let s := {| info := {| root := 1; isThreadable := true;
                         exportedVariableCount := 2;
                         exportedFunctionCount := 0; exportedPragmas := [] |};
              mEnviroment := mkEnviroment 0 0 0 0 0;
              mSlots := [Some a; None];
              mTypes := [0; 0] |} in
  let rsc := mkContext 1 2 3 4 [] in
  length (mTypes s) = exportedVariableCount (info s)
  /\ mTypes (fst (setupScript 9 (fst (setupScript 5 s rsc)) rsc))
     = mTypes (fst (setupScript 5 s rsc)).
Proof.
  cbv zeta. split; [reflexivity |].
  match goal with
  | |- mTypes (fst (setupScript ?now' (fst (setupScript ?now ?s ?rsc)) _)) = _ =>
      exact (proj1 (setupScript_again now now' s rsc rsc eq_refl))
  end.
Defined.

(** ** [runCompiler] *)

Lemma applyPragma_spec key value e :
  match applyPragma key value e with
  | None => validPragma (key, value) = false
  | Some e' =>
      validPragma (key, value) = true
      /\ mStartTimeMillis e' = mStartTimeMillis e
      /\ mVertex e' = program (asksParent "stateVertex" (key, value)) (mVertex e)
      /\ mRaster e' = program (asksParent "stateRaster" (key, value)) (mRaster e)
      /\ mFragment e'
         = program (asksParent "stateFragment" (key, value)) (mFragment e)
      /\ mFragmentStore e'
         = program (asksParent "stateStore" (key, value)) (mFragmentStore e)
  end.
Proof.
  unfold applyPragma, statePragma, validPragma, isStateKey, asksParent, program.
  cbn [fst snd].
  destruct (String.eqb_spec key "version");
    [| destruct (String.eqb_spec key "stateVertex");
       [| destruct (String.eqb_spec key "stateRaster");
          [| destruct (String.eqb_spec key "stateFragment");
             [| destruct (String.eqb_spec key "stateStore")]]]];
    subst; cbn;
    try (destruct (String.eqb_spec value "1"));
    try (destruct (String.eqb_spec value "default"));
    try (destruct (String.eqb_spec value "parent"));
    subst; cbn; try done; repeat split; done.
Qed.

Lemma program_orb a b p : program (a || b) p = program a (program b p).
Proof. by destruct a, b. Qed.

Lemma applyPragmas_spec pragmas :
  forall e,
    fst (applyPragmas pragmas e) = forallb validPragma pragmas
    /\ (forallb validPragma pragmas = true ->
        let e' := snd (applyPragmas pragmas e) in
        mStartTimeMillis e' = mStartTimeMillis e
        /\ mVertex e' = program (existsb (asksParent "stateVertex") pragmas) (mVertex e)
        /\ mRaster e' = program (existsb (asksParent "stateRaster") pragmas) (mRaster e)
        /\ mFragment e'
           = program (existsb (asksParent "stateFragment") pragmas) (mFragment e)
        /\ mFragmentStore e'
           = program (existsb (asksParent "stateStore") pragmas) (mFragmentStore e)).
Proof.
  induction pragmas as [|[key value] pragmas IH]; intros e; cbn [applyPragmas].
  - cbn. repeat split.
  - pose proof (applyPragma_spec key value e) as Hone.
    destruct (applyPragma key value e) as [e1|].
    + destruct Hone as (Hvalid & Ht & Hv & Hr & Hf & Hs).
      destruct (IH e1) as [Hok Henv].
      cbn [forallb existsb]. rewrite Hvalid, Hok. split; [done |].
      cbn [andb]. intros Hall. specialize (Henv Hall). cbv zeta in *.
      destruct Henv as (Ht' & Hv' & Hr' & Hf' & Hs').
      rewrite Ht', Hv', Hr', Hf', Hs', Ht, Hv, Hr, Hf, Hs.
      rewrite !(orb_comm (asksParent _ (key, value))), !program_orb.
      repeat split.
    + cbn [forallb fst snd]. rewrite Hone. split; [done |]. discriminate.
Qed.

(** X: which pragmas [runCompiler] accepts and what they do.  It returns
    true exactly when every "version" pragma has the value "1" and every
    "stateVertex", "stateRaster", "stateFragment" and "stateStore" pragma has
    the value "default" or "parent"; pragmas with other keys are ignored.
    The driver is initialised and its init function invoked in either case.
    On success each program of the environment is the default program of the
    context, or [NULL] if some pragma asked for the parent's, and the script
    gets [exportedVariableCount] empty slots and types; on failure the slot
    and type arrays are not touched. *)
Theorem runCompiler_pragmas (resName cacheDir : string) (bitcode bitcodeLen : Z)
    (s : Script) (rsc : Context) :
  let ok := fst (fst (runCompiler resName cacheDir bitcode bitcodeLen s rsc)) in
  let s' := snd (fst (runCompiler resName cacheDir bitcode bitcodeLen s rsc)) in
  let rsc' := snd (runCompiler resName cacheDir bitcode bitcodeLen s rsc) in
  let pragmas := exportedPragmas (info s) in
  ok = forallb validPragma pragmas
  /\ info s' = info s
  /\ calls rsc'
     = calls rsc ++ [HalInit resName cacheDir bitcode bitcodeLen; HalInvokeInit]
  /\ (ok = true ->
      mSlots s' = replicate (exportedVariableCount (info s)) None
      /\ mTypes s' = replicate (exportedVariableCount (info s)) 0
      /\ mVertex (mEnviroment s')
         = program (existsb (asksParent "stateVertex") pragmas)
             (getDefaultProgramVertex rsc)
      /\ mRaster (mEnviroment s')
         = program (existsb (asksParent "stateRaster") pragmas)
             (getDefaultProgramRaster rsc)
      /\ mFragment (mEnviroment s')
         = program (existsb (asksParent "stateFragment") pragmas)
             (getDefaultProgramFragment rsc)
      /\ mFragmentStore (mEnviroment s')
         = program (existsb (asksParent "stateStore") pragmas)
             (getDefaultProgramStore rsc))
  /\ (ok = false -> mSlots s' = mSlots s /\ mTypes s' = mTypes s).
Proof.
  cbv zeta. unfold runCompiler.
  match goal with
  | |- context [applyPragmas ?ps ?e] =>
      destruct (applyPragmas_spec ps e) as [Hok Henv];
      destruct (applyPragmas ps e) as [ok e'] eqn:Happly
  end.
  cbn [fst snd] in Hok, Henv. subst ok.
  destruct (forallb validPragma (exportedPragmas (info s))) eqn:Hall;
    cbn [fst snd info mSlots mTypes mEnviroment withEnviroment calls call].
  - split; [done |]. split; [done |]. split; [by rewrite <- app_assoc |].
    split; [| discriminate]. intros _.
    destruct (Henv eq_refl) as (_ & Hv & Hr & Hf & Hs).
    cbn in Hv, Hr, Hf, Hs. by rewrite Hv, Hr, Hf, Hs.
  - split; [done |]. split; [done |]. split; [by rewrite <- app_assoc |].
    split; [discriminate | done].
Qed.

Lemma runCompiler_pragmas_witness :
  let s := {| info := {| root := 1; isThreadable := true;
                         exportedVariableCount := 2;
                         exportedFunctionCount := 0;
                         exportedPragmas :=
                           [("version", "1"); ("rs", "java_package_name");
                            ("stateVertex", "parent")] |};
              mEnviroment := mkEnviroment 0 0 0 0 0;
              mSlots := []; mTypes := [] |} in
  let rsc := mkContext 11 12 13 14 [] in
  let s' := snd (fst (runCompiler "script" "/cache" 4096 64 s rsc)) in
  fst (fst (runCompiler "script" "/cache" 4096 64 s rsc)) = true
  /\ mSlots s' = [None; None]
  /\ mVertex (mEnviroment s') = 0
  /\ mRaster (mEnviroment s') = 14.
Proof.
  cbv zeta. split; [reflexivity |].
  match goal with
  | |- mSlots (snd (fst (runCompiler ?n ?c ?b ?l ?s ?rsc))) = _ /\ _ =>
      destruct (runCompiler_pragmas n c b l s rsc) as (_ & _ & _ & Hok & _)
  end.
  destruct (Hok eq_refl) as (Hslots & _ & Hv & Hr & _).
  exact (conj Hslots (conj Hv Hr)).
Defined.

(** ** [run] and [Invoke] *)




(** ** [symbolLookup] *)

Section SymbolFacts.

Variables lookupSymbol lookupSymbolCL lookupSymbolGL
  : string -> option SymbolTable_t.

Abbreviation symbolLookup :=
  (symbolLookup lookupSymbol lookupSymbolCL lookupSymbolGL).
Abbreviation lookupAll :=
  (lookupAll lookupSymbol lookupSymbolCL lookupSymbolGL).

Lemma symbolLookup_script s name :
  let s' := snd (symbolLookup s name) in
  (isThreadable (info s') = true -> isThreadable (info s) = true)
  /\ (name = "__clearThreadable" -> isThreadable (info s') = false)
  /\ root (info s') = root (info s)
  /\ exportedVariableCount (info s') = exportedVariableCount (info s)
  /\ exportedFunctionCount (info s') = exportedFunctionCount (info s)
  /\ exportedPragmas (info s') = exportedPragmas (info s)
  /\ mEnviroment s' = mEnviroment s
  /\ mSlots s' = mSlots s
  /\ mTypes s' = mTypes s.
Proof.
  cbv zeta. unfold ScriptC.symbolLookup.
  destruct (String.eqb_spec name "__isThreadable") as [->|H1]; cbn.
  { repeat split; done. }
  destruct (String.eqb_spec name "__clearThreadable") as [->|H2]; cbn.
  { repeat split; done. }
  destruct (findSymbol _ _ _ name) as [sym|]; cbn.
  - repeat split; try done. by intros [? _]%andb_true_iff.
  - repeat split; done.
Qed.

(** X: the threadable flag only ever goes down, and name lookups change
    nothing else.  Whatever names the compiler looks up, and whatever the
    symbol tables hold, a script that is threadable afterwards was threadable
    before; one lookup of "__clearThreadable" leaves it not threadable for
    good; and the root, the exported counts and pragmas, the environment, the
    slots and the types stay as they were. *)
Theorem threadable_only_goes_down (names : list string) (s : Script) :
  let s' := lookupAll names s in
  (isThreadable (info s') = true -> isThreadable (info s) = true)
  /\ (In "__clearThreadable" names -> isThreadable (info s') = false)
  /\ root (info s') = root (info s)
  /\ exportedVariableCount (info s') = exportedVariableCount (info s)
  /\ exportedFunctionCount (info s') = exportedFunctionCount (info s)
  /\ exportedPragmas (info s') = exportedPragmas (info s)
  /\ mEnviroment s' = mEnviroment s
  /\ mSlots s' = mSlots s
  /\ mTypes s' = mTypes s.
Proof.
  cbv zeta. revert s. unfold ScriptC.lookupAll.
  induction names as [|name names IH]; intros s; cbn [fold_left].
  - repeat split; try done.
  - destruct (IH (snd (symbolLookup s name)))
      as (Hdown & Hclear & Hr & Hv & Hf & Hp & He & Hs & Ht).
    destruct (symbolLookup_script s name)
      as (Hdown1 & Hclear1 & Hr1 & Hv1 & Hf1 & Hp1 & He1 & Hs1 & Ht1).
    cbv zeta in *.
    split; [by intros ?%Hdown%Hdown1 |].
    split; [| repeat split; congruence].
    intros [Heq|Hin]; [| by apply Hclear].
    apply not_true_is_false. intros Hfinal%Hdown.
    by rewrite Hclear1 in Hfinal.
Qed.

End SymbolFacts.

Lemma threadable_only_goes_down_witness :
  let table (name : string) :=
    if String.eqb name "rsGetDt" then Some (mkSymbol 4096 false) else None in
  let none (name : string) : option SymbolTable_t := None in
  let s := {| info := {| root := 1; isThreadable := true;
                         exportedVariableCount := 0;
                         exportedFunctionCount := 0; exportedPragmas := [] |};
              mEnviroment := mkEnviroment 0 0 0 0 0;
              mSlots := []; mTypes := [] |} in
  In "__clearThreadable" ["sin"; "__clearThreadable"]
  /\ isThreadable (info (lookupAll table none none ["sin"; "__clearThreadable"] s))
     = false.
Proof.
  cbv zeta. split; [right; left; reflexivity |].
  match goal with
  | |- isThreadable (info (lookupAll ?t ?n1 ?n2 ?names ?s)) = false =>
      destruct (threadable_only_goes_down t n1 n2 names s) as (_ & Hclear & _)
  end.
  apply Hclear. right. left. reflexivity.
Defined.

Lemma runCompiler_arrays resName cacheDir bitcode bitcodeLen s rsc :
  fst (fst (runCompiler resName cacheDir bitcode bitcodeLen s rsc)) = true ->
  let s' := snd (fst (runCompiler resName cacheDir bitcode bitcodeLen s rsc)) in
  info s' = info s
  /\ mSlots s' = replicate (exportedVariableCount (info s)) None
  /\ mTypes s' = replicate (exportedVariableCount (info s)) 0.
Proof.
  cbv zeta. unfold runCompiler.
  destruct (applyPragmas _ _) as [[|] e']; cbn; [done | discriminate].
Qed.

(** X: a script just compiled has nothing bound.  After a successful
    [runCompiler] the type array has one entry per exported variable, as
    [setupScript] needs; no pointer belongs to an allocation of the script;
    and [setupScript] binds no variable. *)
Theorem compiled_script_binds_nothing (resName cacheDir : string)
    (bitcode bitcodeLen : Z) (s : Script) (rsc : Context) :
  fst (fst (runCompiler resName cacheDir bitcode bitcodeLen s rsc)) = true ->
  let s' := snd (fst (runCompiler resName cacheDir bitcode bitcodeLen s rsc)) in
  length (mTypes s') = exportedVariableCount (info s')
  /\ (forall ptr, ptrToAllocation s' ptr = None)
  /\ (forall now rsc', calls (snd (setupScript now s' rsc')) = calls rsc').
Proof.
  intros Hok. cbv zeta.
  destruct (runCompiler_arrays resName cacheDir bitcode bitcodeLen s rsc Hok)
    as (Hinfo & Hslots & Htypes).
  set (s' := snd (fst (runCompiler resName cacheDir bitcode bitcodeLen s rsc))) in *.
  assert (Hslot : forall ct, slotAt s' ct = None).
  { intros ct. unfold slotAt. rewrite Hslots.
    destruct (replicate _ _ !! ct) as [v|] eqn:Hl; [| done].
    by apply lookup_replicate in Hl as [-> _]. }
  assert (Htype : forall ct, typeAt s' ct = 0).
  { intros ct. unfold typeAt. rewrite Htypes.
    destruct (replicate _ _ !! ct) as [v|] eqn:Hl; [| done].
    by apply lookup_replicate in Hl as [-> _]. }
  assert (Hlen : length (mTypes s') = exportedVariableCount (info s'))
    by (by rewrite Htypes, length_replicate, Hinfo).
  split; [done |]. split.
  - intros ptr. unfold ptrToAllocation. destruct (ptr =? 0); [done |].
    apply findAllocation_None. intros ct a _. by rewrite Hslot.
  - intros now rsc'.
    destruct (setupScript_closed now s' rsc' Hlen) as (types & -> & _).
    cbn [snd calls call]. rewrite <- (app_nil_r (calls rsc')) at 2. f_equal.
    induction (seq 0 (exportedVariableCount (info s'))) as [|ct cts IH]; [done |].
    cbn [flat_map]. rewrite IH. unfold bindCall, resolvedType.
    by rewrite Htype, Hslot.
Qed.

Lemma compiled_script_binds_nothing_witness :
  let s := {| info := {| root := 1; isThreadable := true;
                         exportedVariableCount := 2;
                         exportedFunctionCount := 0;
                         exportedPragmas := [("version", "1")] |};
              mEnviroment := mkEnviroment 0 0 0 0 0;
              mSlots := []; mTypes := [] |} in
  let rsc := mkContext 11 12 13 14 [] in
  let s' := snd (fst (runCompiler "script" "/cache" 4096 64 s rsc)) in
  fst (fst (runCompiler "script" "/cache" 4096 64 s rsc)) = true
  /\ ptrToAllocation s' 4096 = None
  /\ calls (snd (setupScript 5 s' rsc)) = [].
Proof.
  cbv zeta. split; [reflexivity |].
  match goal with
  | |- ptrToAllocation (snd (fst (runCompiler ?n ?c ?b ?l ?s ?rsc))) _ = _ /\ _ =>
      destruct (compiled_script_binds_nothing n c b l s rsc eq_refl)
        as (_ & Hptr & Hbind)
  end.
  split; [apply Hptr | apply Hbind].
Defined.

End ScriptCFacts.

(** * Properties of the types *)

Module RsTypeFacts.
Import RsType.

Local Open Scope Z_scope.

(** ** [getIsNp2] *)

Lemma land_pred_power_of_two x :
  0 < x -> (Z.land x (x - 1) = 0 <-> exists k, 0 <= k /\ x = 2 ^ k).
Proof.
  intros Hpos. split.
  - intros Hland.
    pose proof (Z.log2_spec x Hpos) as [Hlow Hhigh].
    pose proof (Z.log2_nonneg x) as Hk.
    exists (Z.log2 x). split; [done |].
    destruct (Z.eq_dec x (2 ^ Z.log2 x)) as [|Hne]; [done |]. exfalso.
    assert (Hlog : Z.log2 (x - 1) = Z.log2 x)
      by (apply Z.log2_unique; [done | lia]).
    assert (Hbit : Z.testbit (Z.land x (x - 1)) (Z.log2 x) = true).
    { rewrite Z.land_spec, Z.bit_log2 by done. rewrite <- Hlog.
      rewrite Z.bit_log2; [done |].
      assert (0 < 2 ^ Z.log2 x) by (apply Z.pow_pos_nonneg; lia). lia. }
    rewrite Hland, Z.bits_0 in Hbit. done.
  - intros (k & Hk & ->).
    replace (2 ^ k - 1) with (Z.ones k) by (rewrite Z.ones_equiv; lia).
    rewrite Z.land_ones by done. apply Z_mod_same_full.
Qed.

Lemma np2_power_of_two x :
  0 <= x < 2 ^ 32 -> (np2 x = false <-> powerOfTwoOrZero x).
Proof.
  intros Hx. unfold np2, powerOfTwoOrZero, uint32.
  destruct (Z.eqb_spec x 0) as [->|Hnz]; [split; auto |].
  rewrite Z.mod_small by lia.
  rewrite negb_false_iff, Z.eqb_eq, land_pred_power_of_two by lia.
  split; [auto | intros [|]; done].
Qed.

(** X: [getIsNp2] tells whether some dimension is not a power of two.  For
    dimensions that are values of [uint32_t], it answers false exactly when
    each of X, Y and Z is zero or a power of two. *)
Theorem getIsNp2_power_of_two (t : Type_) :
  dimsInRange t ->
  (getIsNp2 t = false <->
   powerOfTwoOrZero (mDimX t) /\ powerOfTwoOrZero (mDimY t)
   /\ powerOfTwoOrZero (mDimZ t)).
Proof.
  intros (Hx & Hy & Hz). unfold getIsNp2.
  rewrite <- (np2_power_of_two _ Hx), <- (np2_power_of_two _ Hy),
    <- (np2_power_of_two _ Hz).
  destruct (np2 (mDimX t)), (np2 (mDimY t)), (np2 (mDimZ t));
    split; try done; intros (? & ? & ?); done.
Qed.

Lemma getIsNp2_power_of_two_witness :
  let t := {| mDimX := 256; mDimY := 96; mDimZ := 0; mDimLOD := false;
              mFaces := false; mElement := None; mLODs := None;
              mLODCount := 0; mMipChainSizeBytes := 0; mTotalSizeBytes := 0;
              mAttribs := None; mAttribsSize := 0 |} in
  dimsInRange t
  /\ getIsNp2 t = true
  /\ ~ (powerOfTwoOrZero 256 /\ powerOfTwoOrZero 96 /\ powerOfTwoOrZero 0).
Proof.
  cbv zeta. split; [unfold dimsInRange; cbn; lia |].
  split; [reflexivity |].
  match goal with
  | |- ~ ?P =>
      intros HP;
      assert (Hfalse : getIsNp2
                {| mDimX := 256; mDimY := 96; mDimZ := 0; mDimLOD := false;
                   mFaces := false; mElement := None; mLODs := None;
                   mLODCount := 0; mMipChainSizeBytes := 0;
                   mTotalSizeBytes := 0; mAttribs := None;
                   mAttribsSize := 0 |} = false)
  end.
  { apply getIsNp2_power_of_two; [unfold dimsInRange; cbn; lia | exact HP]. }
  discriminate Hfalse.
Defined.

(** ** [compute] and [getLODOffset] *)

Lemma mipDim_nonneg l v : 0 <= v -> 0 <= mipDim l v.
Proof. intros Hv. unfold mipDim. destruct (v =? 0); lia. Qed.

Lemma mipDim_0 v : 0 <= v -> mipDim 0 v = v.
Proof.
  intros Hv. unfold mipDim. destruct (Z.eqb_spec v 0); [done |].
  cbn. rewrite Z.div_1_r. lia.
Qed.

Lemma halve_mipDim l v : 0 <= v -> halve (mipDim l v) = mipDim (S l) v.
Proof.
  intros Hv. unfold halve, mipDim.
  destruct (Z.eqb_spec v 0) as [|Hnz]; [done |].
  assert (Hpow : 0 < 2 ^ Z.of_nat l) by (apply Z.pow_pos_nonneg; lia).
  assert (Hdiv : v / 2 ^ Z.of_nat (S l) = v / 2 ^ Z.of_nat l / 2).
  { rewrite Nat2Z.inj_succ, Z.pow_succ_r by lia.
    rewrite (Z.mul_comm 2), Z.div_div by lia. reflexivity. }
  rewrite Hdiv.
  assert (0 <= v / 2 ^ Z.of_nat l) by (apply Z.div_pos; lia).
  destruct (Z.ltb_spec 1 (Z.max 1 (v / 2 ^ Z.of_nat l))) as [Hbig|Hsmall].
  - rewrite Z.shiftr_div_pow2 by lia. change (2 ^ 1) with 2.
    rewrite Z.max_r by lia.
    assert (1 <= v / 2 ^ Z.of_nat l / 2) by (apply Z.div_le_lower_bound; lia).
    lia.
  - assert (Hone : v / 2 ^ Z.of_nat l <= 1) by lia.
    assert (v / 2 ^ Z.of_nat l / 2 = 0) by (apply Z.div_small; lia).
    lia.
Qed.

Lemma mipBytes_nonneg t es l :
  dimsInRange t -> 0 <= es -> 0 <= mipBytes t es l.
Proof.
  intros (Hx & Hy & Hz) Hes. unfold mipBytes.
  pose proof (mipDim_nonneg l (mDimX t) ltac:(lia)).
  apply Z.mul_nonneg_nonneg; [| done].
  apply Z.mul_nonneg_nonneg; [| lia].
  apply Z.mul_nonneg_nonneg; lia.
Qed.

Lemma mipOffset_nonneg t es l :
  dimsInRange t -> 0 <= es -> 0 <= mipOffset t es l.
Proof.
  intros Hd Hes. induction l as [|l IH]; cbn; [done |].
  pose proof (mipBytes_nonneg t es l Hd Hes). lia.
Qed.

Lemma mipOffset_mono t es l n :
  dimsInRange t -> 0 <= es -> mipOffset t es l <= mipOffset t es (l + n).
Proof.
  intros Hd Hes. induction n as [|n IH]; [by rewrite Nat.add_0_r |].
  rewrite Nat.add_succ_r. cbn.
  pose proof (mipBytes_nonneg t es (l + n) Hd Hes). lia.
Qed.

Section ComputeFacts.

Variable sizeBits : Z.
Variable rsFindHighBit : Z -> Z.
Variable RS_SHADER_ATTR : string.

Hypothesis size_t_32 : 32 <= sizeBits.

Lemma size_t_small v : 0 <= v < 2 ^ 32 -> size_t sizeBits v = v.
Proof.
  intros Hv. unfold size_t. apply Z.mod_small.
  assert (2 ^ 32 <= 2 ^ sizeBits) by (apply Z.pow_le_mono_r; lia). lia.
Qed.

Lemma levelBytes_exact es tx ty tz :
  0 <= es -> 0 <= tx -> 0 <= ty -> 0 <= tz ->
  tx * Z.max ty 1 * Z.max tz 1 * es < 2 ^ 32 ->
  levelBytes sizeBits es tx ty tz = tx * Z.max ty 1 * Z.max tz 1 * es.
Proof.
  intros Hes Hx Hy Hz Hsmall. unfold levelBytes, rsMax, uint32.
  destruct (Z.eq_dec es 0) as [->|Hnz].
  - rewrite !Z.mul_0_r. by apply size_t_small.
  - assert (H1 : 1 <= Z.max ty 1) by lia.
    assert (H2 : 1 <= Z.max tz 1) by lia.
    assert (Ha : 0 <= tx * Z.max ty 1) by nia.
    assert (Hb : 0 <= tx * Z.max ty 1 * Z.max tz 1) by nia.
    assert (Hc : tx * Z.max ty 1 * Z.max tz 1 < 2 ^ 32) by nia.
    assert (Hd : tx * Z.max ty 1 < 2 ^ 32) by nia.
    rewrite (Z.mod_small (tx * Z.max ty 1)) by lia.
    rewrite (Z.mod_small (tx * Z.max ty 1 * Z.max tz 1)) by lia.
    apply size_t_small. nia.
Qed.

(** Without overflow the loop writes the levels of the mipmap chain. *)
Lemma lodLoop_exact t es n :
  dimsInRange t -> 0 <= es ->
  forall l,
    mipOffset t es (l + n) < 2 ^ 32 ->
    lodLoop sizeBits n es (mipDim l (mDimX t)) (mipDim l (mDimY t))
      (mipDim l (mDimZ t)) (mipOffset t es l)
    = (map (mipLevel t es) (seq l n), mipOffset t es (l + n)).
Proof.
  intros Hd Hes. induction n as [|n IH]; intros l Hsmall.
  - cbn. by rewrite Nat.add_0_r.
  - cbn [lodLoop seq map]. destruct Hd as (Hx & Hy & Hz).
    pose proof (mipDim_nonneg l (mDimX t) ltac:(lia)).
    pose proof (mipDim_nonneg l (mDimY t) ltac:(lia)).
    pose proof (mipDim_nonneg l (mDimZ t) ltac:(lia)).
    pose proof (mipOffset_nonneg t es l (conj Hx (conj Hy Hz)) Hes).
    pose proof (mipBytes_nonneg t es l (conj Hx (conj Hy Hz)) Hes) as Hb.
    pose proof (mipOffset_mono t es (S l) n (conj Hx (conj Hy Hz)) Hes) as Hm.
    rewrite Nat.add_succ_r in Hsmall. cbn [Nat.add] in Hm.
    change (mipOffset t es (S l)) with (mipOffset t es l + mipBytes t es l) in Hm.
    rewrite levelBytes_exact by (try done; unfold mipBytes in *; lia).
    rewrite !halve_mipDim by lia.
    fold (mipBytes t es l).
    rewrite size_t_small by lia.
    change (mipOffset t es l + mipBytes t es l) with (mipOffset t es (S l)).
    rewrite IH by (cbn [Nat.add]; done).
    rewrite Nat.add_succ_r. reflexivity.
Qed.

Abbreviation compute := (compute sizeBits rsFindHighBit RS_SHADER_ATTR).
Abbreviation lodCount := (lodCount rsFindHighBit).

(** Without overflow [compute] writes the levels of the mipmap chain. *)
Lemma compute_closed (t : Type_) (e : Element) :
  mElement t = Some e ->
  lodsMatch t ->
  dimsInRange t ->
  0 <= getSizeBytes e ->
  0 < lodCount t ->
  mipOffset t (getSizeBytes e) (Z.to_nat (lodCount t)) < 2 ^ 32 ->
  compute t
  = Some (makeGLComponents RS_SHADER_ATTR e
            {| mDimX := mDimX t; mDimY := mDimY t; mDimZ := mDimZ t;
               mDimLOD := mDimLOD t; mFaces := mFaces t;
               mElement := mElement t;
               mLODs :=
                 Some (map (mipLevel t (getSizeBytes e))
                         (seq 0 (Z.to_nat (lodCount t))));
               mLODCount := lodCount t;
               mMipChainSizeBytes :=
                 mipOffset t (getSizeBytes e) (Z.to_nat (lodCount t));
               mTotalSizeBytes :=
                 if mFaces t
                 then size_t sizeBits
                        (mipOffset t (getSizeBytes e) (Z.to_nat (lodCount t)) * 6)
                 else mipOffset t (getSizeBytes e) (Z.to_nat (lodCount t));
               mAttribs := mAttribs t; mAttribsSize := mAttribsSize t |}).
Proof.
  intros Helem Hmatch Hdims Hes Hcount Hsmall.
  set (n := Z.to_nat (lodCount t)) in *.
  pose proof (lodLoop_exact t (getSizeBytes e) n Hdims Hes 0%nat Hsmall) as Hloop.
  destruct Hdims as (Hx & Hy & Hz).
  rewrite !mipDim_0 in Hloop by lia. cbn [mipOffset Nat.add] in Hloop.
  unfold RsType.compute. rewrite Helem. fold n. rewrite Hloop.
  set (levels := map (mipLevel t (getSizeBytes e)) (seq 0 n)).
  assert (Hlen : length levels = n)
    by (unfold levels; by rewrite length_map, length_seq).
  assert (Hwrite :
            writeLODs
              (if RsType.lodCount rsFindHighBit t =? mLODCount t then mLODs t
               else Some (replicate n (mkLOD 0 0 0 0))) levels
            = Some (Some levels)).
  { unfold writeLODs.
    destruct (Z.eqb_spec (RsType.lodCount rsFindHighBit t) (mLODCount t)) as [Heq|Hne].
    - unfold lodsMatch in Hmatch. destruct (mLODs t) as [old|]; [| lia].
      assert (length old = n) as Hold by (unfold n; lia).
      rewrite Hlen, Hold, Nat.ltb_irrefl.
      rewrite <- Hold, drop_all, app_nil_r. reflexivity.
    - rewrite length_replicate, Hlen, Nat.ltb_irrefl.
      rewrite <- (length_replicate n (mkLOD 0 0 0 0)) at 1.
      rewrite drop_all, app_nil_r. reflexivity. }
  by rewrite Hwrite.
Qed.

(** X: [compute] lays out the mipmap chain.  On a type with an element,
    whose array of levels has [mLODCount] entries, with at least one level to
    compute and a chain of less than 2^32 bytes, [compute] succeeds; level 0
    has the dimensions of the type and each further level half of them,
    rounded down, but never less than 1 for a dimension that is not 0; every
    level starts where the one before it ends; [mMipChainSizeBytes] is the
    sum of the sizes of the levels; [mTotalSizeBytes] is that sum for a type
    without faces and, for a type with faces, six times that sum in [size_t]
    arithmetic: exactly six times the sum when that is below 2^32, and its
    remainder modulo 2^[sizeBits] in general. *)
Theorem compute_mip_chain (t : Type_) (e : Element) :
  mElement t = Some e ->
  lodsMatch t ->
  dimsInRange t ->
  0 <= getSizeBytes e ->
  0 < lodCount t ->
  mipOffset t (getSizeBytes e) (Z.to_nat (lodCount t)) < 2 ^ 32 ->
  exists t',
    compute t = Some t'
    /\ mLODs t'
       = Some (map (mipLevel t (getSizeBytes e)) (seq 0 (Z.to_nat (lodCount t))))
    /\ mLODCount t' = lodCount t
    /\ lodsMatch t'
    /\ mMipChainSizeBytes t' = mipOffset t (getSizeBytes e) (Z.to_nat (lodCount t))
    /\ mTotalSizeBytes t'
       = (if mFaces t then (mMipChainSizeBytes t' * 6) mod 2 ^ sizeBits
          else mMipChainSizeBytes t')
    /\ (mMipChainSizeBytes t' * 6 < 2 ^ 32 ->
        mTotalSizeBytes t'
        = if mFaces t then mMipChainSizeBytes t' * 6 else mMipChainSizeBytes t')
    /\ (mDimX t', mDimY t', mDimZ t', mDimLOD t', mFaces t', mElement t')
       = (mDimX t, mDimY t, mDimZ t, mDimLOD t, mFaces t, mElement t).
Proof.
  intros Helem Hmatch Hdims Hes Hcount Hsmall.
  rewrite (compute_closed t e Helem Hmatch Hdims Hes Hcount Hsmall).
  pose proof (mipOffset_nonneg t (getSizeBytes e) (Z.to_nat (lodCount t))
                Hdims Hes) as Hchain.
  eexists. split; [reflexivity |]. cbn.
  split; [done |]. split; [done |]. split; [| split; [done |]].
  - unfold lodsMatch. cbn. rewrite length_map, length_seq. lia.
  - split; [done |]. split; [| done].
    intros Hsix. destruct (mFaces t); [| done].
    apply size_t_small. lia.
Qed.

(** X: a texel lies inside its level.  After [compute], under the same
    conditions, the offset [getLODOffset] gives for coordinates within the
    dimensions of a level is at least the offset of the level, and the
    element stored there ends before the next level starts, within the
    chain. *)
Theorem texel_within_its_level (t t' : Type_) (e : Element) (lod : nat)
    (x y z : Z) :
  mElement t = Some e ->
  lodsMatch t ->
  dimsInRange t ->
  0 <= getSizeBytes e ->
  mipOffset t (getSizeBytes e) (Z.to_nat (lodCount t)) < 2 ^ 32 ->
  compute t = Some t' ->
  (lod < Z.to_nat (lodCount t))%nat ->
  0 <= x < mipDim lod (mDimX t) ->
  0 <= y < Z.max (mipDim lod (mDimY t)) 1 ->
  0 <= z < Z.max (mipDim lod (mDimZ t)) 1 ->
  exists off,
    getLODOffset3 sizeBits t' (Z.of_nat lod) x y z = Some off
    /\ mipOffset t (getSizeBytes e) lod <= off
    /\ off + getSizeBytes e <= mipOffset t (getSizeBytes e) (S lod)
    /\ mipOffset t (getSizeBytes e) (S lod) <= mMipChainSizeBytes t'.
Proof.
  intros Helem Hmatch Hdims Hes Hsmall Hcompute Hlod Hx Hy Hz.
  assert (Hcount : 0 < lodCount t) by lia.
  pose proof (compute_closed t e Helem Hmatch Hdims Hes Hcount Hsmall) as Hc.
  rewrite Hcompute in Hc. injection Hc as ->.
  assert (Hlods : mLODs
                    (makeGLComponents RS_SHADER_ATTR e
                       {| mDimX := mDimX t; mDimY := mDimY t; mDimZ := mDimZ t;
                          mDimLOD := mDimLOD t; mFaces := mFaces t;
                          mElement := mElement t;
                          mLODs :=
                            Some (map (mipLevel t (getSizeBytes e))
                                    (seq 0 (Z.to_nat (lodCount t))));
                          mLODCount := lodCount t;
                          mMipChainSizeBytes :=
                            mipOffset t (getSizeBytes e) (Z.to_nat (lodCount t));
                          mTotalSizeBytes :=
                            if mFaces t
                            then size_t sizeBits
                                   (mipOffset t (getSizeBytes e)
                                      (Z.to_nat (lodCount t)) * 6)
                            else mipOffset t (getSizeBytes e)
                                   (Z.to_nat (lodCount t));
                          mAttribs := mAttribs t;
                          mAttribsSize := mAttribsSize t |})
                  = Some (map (mipLevel t (getSizeBytes e))
                            (seq 0 (Z.to_nat (lodCount t)))))
    by reflexivity.
  match type of Hlods with
  | mLODs ?t1 = _ =>
      assert (Helem' : mElement t1 = mElement t) by reflexivity;
      assert (Hchain : mMipChainSizeBytes t1
                       = mipOffset t (getSizeBytes e) (Z.to_nat (lodCount t)))
        by reflexivity;
      set (t' := t1) in *
  end.
  set (es := getSizeBytes e) in *.
  set (n := Z.to_nat (lodCount t)) in *.
  assert (Hlevel : level t' (Z.of_nat lod) = Some (mipLevel t es lod, es)).
  { unfold level. rewrite Hlods, Helem', Helem.
    destruct (Z.ltb_spec (Z.of_nat lod) 0); [lia |].
    rewrite Nat2Z.id, list_lookup_fmap, lookup_seq_lt by done. reflexivity. }
  unfold getLODOffset3. rewrite Hlevel. cbn [mipLevel mX mY mOffset].
  set (X := mipDim lod (mDimX t)) in *.
  set (Y := mipDim lod (mDimY t)) in *.
  set (Z0 := mipDim lod (mDimZ t)) in *.
  destruct Hdims as (HdX & HdY & HdZ).
  assert (HY : 0 <= Y) by (apply mipDim_nonneg; lia).
  assert (HZ : 0 <= Z0) by (apply mipDim_nonneg; lia).
  pose proof (mipOffset_nonneg t es lod (conj HdX (conj HdY HdZ)) Hes) as Hoff.
  pose proof (mipOffset_mono t es (S lod) (n - S lod)
                (conj HdX (conj HdY HdZ)) Hes) as Hmono.
  replace (S lod + (n - S lod))%nat with n in Hmono by lia.
  assert (Hbytes : mipOffset t es (S lod)
                   = mipOffset t es lod + X * Z.max Y 1 * Z.max Z0 1 * es)
    by reflexivity.
  rewrite Hbytes in *.
  set (Y1 := Z.max Y 1) in *. set (Z1 := Z.max Z0 1) in *.
  assert (HY1 : 1 <= Y1 /\ Y <= Y1) by (unfold Y1; lia).
  assert (HZ1 : 1 <= Z1) by (unfold Z1; lia).
  clearbody Y1 Z1 X Y Z0.
  assert (HyX : 0 <= y * X) by (apply Z.mul_nonneg_nonneg; lia).
  assert (HzX : 0 <= z * X) by (apply Z.mul_nonneg_nonneg; lia).
  assert (HzXY : 0 <= z * X * Y) by (apply Z.mul_nonneg_nonneg; lia).
  assert (HyX' : y * X <= (Y1 - 1) * X)
    by (apply Z.mul_le_mono_nonneg_r; lia).
  assert (HzX' : z * X <= (Z1 - 1) * X)
    by (apply Z.mul_le_mono_nonneg_r; lia).
  assert (HzXY' : z * X * Y <= (Z1 - 1) * X * Y1)
    by (apply Z.mul_le_mono_nonneg; lia).
  assert (Hall : X + (Y1 - 1) * X + (Z1 - 1) * X * Y1 = X * Y1 * Z1) by ring.
  assert (Hidx1 : x + y * X + z * X * Y + 1 <= X * Y1 * Z1) by lia.
  assert (Hlevel0 : 0 <= X * Y1 * Z1) by lia.
  assert (Hprod : size_t sizeBits
                    (size_t sizeBits
                       (size_t sizeBits (x + size_t sizeBits (y * X))
                        + size_t sizeBits (size_t sizeBits (z * X) * Y)) * es)
                  = (x + y * X + z * X * Y) * es).
  { destruct (Z.eq_dec es 0) as [Hz0|Hnz].
    - rewrite Hz0, !Z.mul_0_r. by apply size_t_small.
    - assert (Htexels : X * Y1 * Z1 <= X * Y1 * Z1 * es) by nia.
      assert ((Z1 - 1) * X <= (Z1 - 1) * X * Y1) by nia.
      rewrite (size_t_small (y * X)) by lia.
      rewrite (size_t_small (z * X)) by lia.
      rewrite (size_t_small (z * X * Y)) by lia.
      rewrite (size_t_small (x + y * X)) by lia.
      rewrite (size_t_small (x + y * X + z * X * Y)) by lia.
      apply size_t_small. nia. }
  rewrite Hprod.
  assert (Hend : (x + y * X + z * X * Y) * es + es <= X * Y1 * Z1 * es) by nia.
  assert (0 <= (x + y * X + z * X * Y) * es) by nia.
  eexists. split; [reflexivity |].
  unfold uint32. rewrite Z.mod_small by lia.
  repeat split; lia.
Qed.

(** X: the overloads of [getLODOffset] agree.  With [z = 0] the offset for
    three coordinates is the offset for two, and with [y = 0] the offset for
    two is the offset for one, on every type and level. *)
Theorem getLODOffset_overloads_agree (t : Type_) (lod x y : Z) :
  getLODOffset3 sizeBits t lod x y 0 = getLODOffset2 sizeBits t lod x y
  /\ getLODOffset2 sizeBits t lod x 0 = getLODOffset1 sizeBits t lod x.
Proof.
  assert (Hpos : 0 < 2 ^ sizeBits) by (apply Z.pow_pos_nonneg; lia).
  unfold getLODOffset3, getLODOffset2, getLODOffset1.
  destruct (level t lod) as [[l s]|]; [| done].
  unfold size_t. cbn [Z.mul]. rewrite Z.mod_0_l, Z.mul_0_l, Z.mod_0_l by lia.
  rewrite !Z.add_0_r, !Z.mod_mod by lia.
  split; [reflexivity |].
  by rewrite Z.mul_mod_idemp_l by lia.
Qed.

(** X: [compute] relies on the array of levels matching [mLODCount], which
    [clear] breaks.  [clear] frees the array and keeps [mLODCount]; on a type
    whose array is [NULL] while [mLODCount] already is the number of levels
    to compute, at least one, [compute] allocates nothing and writes its
    first level through the [NULL] pointer; and right after [clear] it reads
    through the [NULL] element. *)
Theorem compute_needs_matching_levels (t : Type_) :
  (mLODs (clear t) = None /\ mLODCount (clear t) = mLODCount t
   /\ compute (clear t) = None)
  /\ (mLODs t = None -> lodCount t = mLODCount t -> 0 < lodCount t ->
      compute t = None).
Proof.
  split; [done |].
  intros Hnull Hsame Hcount. unfold RsType.compute.
  destruct (mElement t) as [e|]; [| done].
  apply Z.eqb_eq in Hsame as ->. rewrite Hnull.
  destruct (Z.to_nat (RsType.lodCount rsFindHighBit t)) as [|n] eqn:Hn; [lia |].
  cbn [lodLoop]. destruct (lodLoop _ n _ _ _ _ _) as [rest final]. reflexivity.
Qed.

End ComputeFacts.

Lemma compute_mip_chain_witness :
  let e := {| getSizeBytes := 4; getFields := [] |} in
  let t := {| mDimX := 4; mDimY := 4; mDimZ := 0; mDimLOD := true;
              mFaces := true; mElement := Some e; mLODs := None;
              mLODCount := 0; mMipChainSizeBytes := 0; mTotalSizeBytes := 0;
              mAttribs := None; mAttribsSize := 0 |} in
  32 <= 32
  /\ lodsMatch t
  /\ exists t',
       compute 32 Z.log2 "ATTRIB_" t = Some t'
       /\ mLODs t' = Some [mkLOD 4 4 0 0; mkLOD 2 2 0 64; mkLOD 1 1 0 80]
       /\ mMipChainSizeBytes t' = 84
       /\ mTotalSizeBytes t' = 504.
Proof.
  cbv zeta. split; [lia |]. split; [reflexivity |].
  match goal with
  | |- exists t', compute _ _ _ ?t = _ /\ _ =>
      destruct (compute_mip_chain 32 Z.log2 "ATTRIB_" ltac:(lia) t
                  {| getSizeBytes := 4; getFields := [] |}
                  eq_refl eq_refl)
        as (t' & Hc & Hlods & _ & _ & Hchain & _ & Htotal & _)
  end.
  - vm_compute; repeat split; first [lia | discriminate | reflexivity].
  - vm_compute; repeat split; first [lia | discriminate | reflexivity].
  - reflexivity.
  - reflexivity.
  - exists t'. split; [exact Hc |]. split; [exact Hlods |].
    split; [exact Hchain |].
    rewrite Htotal; rewrite Hchain; [reflexivity | reflexivity].
Defined.

Lemma texel_within_its_level_witness :
  let e := {| getSizeBytes := 4; getFields := [] |} in
  let t := {| mDimX := 4; mDimY := 4; mDimZ := 0; mDimLOD := true;
              mFaces := false; mElement := Some e; mLODs := None;
              mLODCount := 0; mMipChainSizeBytes := 0; mTotalSizeBytes := 0;
              mAttribs := None; mAttribsSize := 0 |} in
  is_Some (compute 32 Z.log2 "ATTRIB_" t)
  /\ forall t', compute 32 Z.log2 "ATTRIB_" t = Some t' ->
       exists off,
         getLODOffset3 32 t' 1 1 1 0 = Some off /\ 64 <= off /\ off + 4 <= 80.
Proof.
  cbv zeta. split; [eexists; reflexivity |].
  intros t' Hc.
  match type of Hc with
  | compute _ _ _ ?t = _ =>
      destruct (texel_within_its_level 32 Z.log2 "ATTRIB_" ltac:(lia) t t'
                  {| getSizeBytes := 4; getFields := [] |} 1%nat 1 1 0
                  eq_refl eq_refl)
        as (off & Hoff & Hlow & Hhigh & _)
  end.
  - vm_compute; repeat split; first [lia | discriminate | reflexivity].
  - vm_compute; repeat split; first [lia | discriminate | reflexivity].
  - reflexivity.
  - exact Hc.
  - vm_compute; repeat split; first [lia | discriminate | reflexivity].
  - vm_compute; repeat split; first [lia | discriminate | reflexivity].
  - vm_compute; repeat split; first [lia | discriminate | reflexivity].
  - vm_compute; repeat split; first [lia | discriminate | reflexivity].
  - exists off. split; [exact Hoff |]. split; [exact Hlow | exact Hhigh].
Defined.

Lemma getLODOffset_overloads_agree_witness :
  let e := {| getSizeBytes := 4; getFields := [] |} in
  let t := {| mDimX := 4; mDimY := 4; mDimZ := 0; mDimLOD := false;
              mFaces := false; mElement := Some e;
              mLODs := Some [mkLOD 4 4 0 0];
              mLODCount := 1; mMipChainSizeBytes := 64; mTotalSizeBytes := 64;
              mAttribs := None; mAttribsSize := 0 |} in
  32 <= 32
  /\ getLODOffset3 32 t 0 3 2 0 = getLODOffset2 32 t 0 3 2.
Proof.
  cbv zeta. split; [lia |].
  match goal with
  | |- getLODOffset3 _ ?t ?lod ?x ?y 0 = _ =>
      exact (proj1 (getLODOffset_overloads_agree 32 ltac:(lia) t lod x y))
  end.
Defined.

Lemma compute_needs_matching_levels_witness :
  let e := {| getSizeBytes := 4; getFields := [] |} in
  let t := {| mDimX := 4; mDimY := 4; mDimZ := 0; mDimLOD := false;
              mFaces := false; mElement := Some e; mLODs := None;
              mLODCount := 1; mMipChainSizeBytes := 64; mTotalSizeBytes := 64;
              mAttribs := None; mAttribsSize := 0 |} in
  mLODs t = None
  /\ lodCount Z.log2 t = mLODCount t
  /\ compute 32 Z.log2 "ATTRIB_" t = None.
Proof.
  cbv zeta. split; [reflexivity |]. split; [reflexivity |].
  match goal with
  | |- compute _ _ _ ?t = None =>
      exact (proj2 (compute_needs_matching_levels 32 Z.log2 "ATTRIB_" t)
               eq_refl eq_refl eq_refl)
  end.
Defined.

End RsTypeFacts.
